(** * Task-orchestration core of General_Repo/async_operations.py

    Shallow embedding of the class [AsyncOperations]:
    - [run_task], [run_in_parallel] (over a model of [asyncio.gather]),
      [run_with_timeout], [run_with_retry], [run_with_rate_limit],
      [run_with_dependency_graph], [run_with_priority] and
      [run_with_resource_management] (over a model of [asyncio.Semaphore]).

    Logging calls ([self.logger.info/warning/error]) are fire-and-forget and
    do not influence control flow; they are not modelled.  A unit of work is
    an opaque callable; its argument tuple is fixed, so a unit is modelled by
    what a call of it produces. *)

From Stdlib Require Import String List ZArith QArith Permutation Sorted Lia Bool.
Import ListNotations.
Open Scope nat_scope.
Open Scope list_scope.

(** ** Python values and exceptions *)

Inductive value : Type :=
| VNone
| VInt (z : Z)
| VStr (s : string).

Inductive error : Type :=
| Exc (msg : string)          (** an exception raised by a unit of work *)
| ValueError (msg : string)
| KeyError (key : string)
| TimeoutError                (** [asyncio.TimeoutError] *)
| RecursionError.

(** A computation either returns a value or raises. *)
Inductive res (A : Type) : Type :=
| Ret (a : A)
| Raise (e : error).
Arguments Ret {A} a.
Arguments Raise {A} e.

Definition is_ret {A} (r : res A) : bool :=
  match r with Ret _ => true | Raise _ => false end.

(** A unit of work: its name ([task.__name__]), how long a call of it runs
    (seconds), and what the call produces. *)
Record work := {
  wname : string;
  wdur : Q;
  wres : res value
}.

(** [run_task]: [await asyncio.to_thread(task, *args)]; an exception is
    logged and re-raised unchanged. *)
Definition run_task (w : work) : res value := wres w.

(** ** [asyncio.gather] and [run_in_parallel]

    [gather] wraps each awaitable in a child future and registers
    [_done_callback] on it.  The children complete in an order chosen by the
    event loop and the worker threads; [sched] is that completion order, a
    list of child indices.  The callback counts finished children; the outer
    future takes the first exception seen (return_exceptions=False) or, when
    the last child finishes, the list of the children's results in child
    order.  Completions after the outer future is done are ignored. *)

Module Gather.

Record gstate := {
  nfinished : nat;
  outer : option (res (list value))
}.

(** The results list built by [[fut.result() for fut in children]]; it is
    only built when no child raised. *)
Fixpoint collect (outs : list (res value)) : list value :=
  match outs with
  | [] => []
  | Ret v :: r => v :: collect r
  | Raise _ :: r => collect r
  end.

(** [_done_callback] for child [i]. *)
Definition on_done (outs : list (res value)) (st : gstate) (i : nat) : gstate :=
  let nf := S (nfinished st) in
  match outer st with
  | Some o => {| nfinished := nf; outer := Some o |}
  | None =>
      match nth_error outs i with
      | Some (Raise e) => {| nfinished := nf; outer := Some (Raise e) |}
      | _ =>
          if Nat.eqb nf (length outs)
          then {| nfinished := nf; outer := Some (Ret (collect outs)) |}
          else {| nfinished := nf; outer := None |}
      end
  end.

(** [await asyncio.gather(...)] over the children: [None] means the outer future is never
    resolved by this completion order. An empty gather resolves at once to
    the empty list. *)
Definition gather (outs : list (res value)) (sched : list nat)
  : option (res (list value)) :=
  match outs with
  | [] => Some (Ret [])
  | _ => outer (fold_left (on_done outs) sched {| nfinished := 0; outer := None |})
  end.

(** The first child, in completion order, whose result is an exception. *)
Fixpoint first_fail (outs : list (res value)) (sched : list nat) : option error :=
  match sched with
  | [] => None
  | i :: s =>
      match nth_error outs i with
      | Some (Raise e) => Some e
      | _ => first_fail outs s
      end
  end.

End Gather.

(** [run_in_parallel]: gathers [self.run_task(task, ...)] for every task,
    in list order. *)
Definition run_in_parallel (tasks : list work) (sched : list nat)
  : option (res (list value)) :=
  Gather.gather (map run_task tasks) sched.

(** ** [run_with_timeout] *)

(** [asyncio.wait_for(self.run_task(task, *args), timeout=timeout)]: the
    inner call finishes [wdur w] seconds after it starts; if that is before
    the deadline its outcome (value or exception) is passed through,
    otherwise the wait is abandoned and [asyncio.TimeoutError] is raised.
    The inner call's own outcome is then never looked at. *)
Definition wait_for (w : work) (timeout : Q) : res value :=
  if Qle_bool timeout (wdur w) then Raise TimeoutError else run_task w.

(** [run_with_timeout]: [except asyncio.TimeoutError: ... return None].
    Since Python 3.11 [asyncio.TimeoutError] is the builtin [TimeoutError],
    so a [TimeoutError] raised by the unit itself is caught too. *)
Definition run_with_timeout (w : work) (timeout : Q) : res value :=
  match wait_for w timeout with
  | Raise TimeoutError => Ret VNone
  | r => r
  end.

(** ** [run_with_retry] *)

(** Observable events of the retry loop: the [k]-th call of the unit, and
    [await asyncio.sleep(retry_delay)]. *)
Inductive retry_event : Type :=
| Attempt (k : nat)
| Sleep (d : Q).

(** [for attempt in range(max_retries): try: return await self.run_task(...)
    except: if attempt == max_retries - 1: raise; ...; await asyncio.sleep(...)].
    The unit may behave differently from call to call: its call number [k]
    (from 0) produces [u k].  Falling off the loop returns [None]. *)
Fixpoint retry_loop (u : nat -> res value) (max_retries : Z) (retry_delay : Q)
    (attempts : list nat) : list retry_event * res value :=
  match attempts with
  | [] => ([], Ret VNone)
  | a :: rest =>
      match u a with
      | Ret v => ([Attempt a], Ret v)
      | Raise e =>
          if Z.eqb (Z.of_nat a) (max_retries - 1)
          then ([Attempt a], Raise e)
          else
            let (tr, r) := retry_loop u max_retries retry_delay rest in
            (Attempt a :: Sleep retry_delay :: tr, r)
      end
  end.

(** [range(max_retries)] is empty for [max_retries <= 0]. *)
Definition run_with_retry (u : nat -> res value) (max_retries : Z) (retry_delay : Q)
  : list retry_event * res value :=
  retry_loop u max_retries retry_delay (seq 0 (Z.to_nat max_retries)).

(** ** [run_with_priority] *)

(** A task descriptor [{'task': ..., 'priority': ...}]. *)
Record descriptor := {
  d_task : work;
  priority : Z
}.

Section PySorted.
Context {A : Type} (key : A -> Z).

(** A stable ascending sort (insertion sort: an element goes before the
    elements that follow it in the input and have an equal key). *)
Fixpoint insert_asc (x : A) (l : list A) : list A :=
  match l with
  | [] => [x]
  | y :: r => if Z.leb (key x) (key y) then x :: y :: r else y :: insert_asc x r
  end.

Fixpoint sort_asc (l : list A) : list A :=
  match l with
  | [] => []
  | x :: r => insert_asc x (sort_asc r)
  end.

(** [sorted(l, key=key, reverse=True)]: CPython's [list.sort] reverses the
    list, sorts it stably in ascending order and reverses the result. *)
Definition py_sorted_desc (l : list A) : list A :=
  rev (sort_asc (rev l)).

End PySorted.

(** [for task_info in sorted_tasks: result = await self.run_task(task_info['task'], *args);
    results.append(result)]: the first list is the descriptors whose units
    were invoked, in order. *)
Fixpoint run_sequential (ds : list descriptor) : list descriptor * res (list value) :=
  match ds with
  | [] => ([], Ret [])
  | d :: r =>
      match run_task (d_task d) with
      | Raise e => ([d], Raise e)
      | Ret v =>
          let (tr, rr) := run_sequential r in
          (d :: tr, match rr with Ret vs => Ret (v :: vs) | Raise e => Raise e end)
      end
  end.

Definition run_with_priority (tasks : list descriptor) : list descriptor * res (list value) :=
  run_sequential (py_sorted_desc priority tasks).

(** ** [run_with_rate_limit] *)

Inductive rl_event : Type :=
| RunBatch (batch : list work)
| Pause (d : Q).

(** [range(0, n, step)] for [step >= 1]: the multiples [k * step] for
    [k < ceil(n / step)]. *)
Definition py_range_step (n step : nat) : list nat :=
  map (fun k => k * step) (seq 0 ((n + step - 1) / step)).

(** The loop body for [i] in [range(0, len(tasks), rate_limit)];
    [sch i] is the completion order of the gather for the batch at [i]. *)
Fixpoint rl_loop (tasks : list work) (rate_limit : nat) (time_period : Q)
    (sch : nat -> list nat) (starts : list nat) (results : list value)
  : list rl_event * option (res (list value)) :=
  match starts with
  | [] => ([], Some (Ret results))
  | i :: rest =>
      let batch := firstn rate_limit (skipn i tasks) in
      match run_in_parallel batch (sch i) with
      | None => ([RunBatch batch], None)
      | Some (Raise e) => ([RunBatch batch], Some (Raise e))
      | Some (Ret batch_results) =>
          let (tr, r) := rl_loop tasks rate_limit time_period sch rest
                           (results ++ batch_results) in
          if Nat.ltb (i + rate_limit) (length tasks)
          then (RunBatch batch :: Pause time_period :: tr, r)
          else (RunBatch batch :: tr, r)
      end
  end.

(** [range(0, n, 0)] raises [ValueError]. *)
Definition run_with_rate_limit (tasks : list work) (rate_limit : nat) (time_period : Q)
    (sch : nat -> list nat) : list rl_event * option (res (list value)) :=
  if Nat.eqb rate_limit 0
  then ([], Some (Raise (ValueError "range() arg 3 must not be zero")))
  else rl_loop tasks rate_limit time_period sch (py_range_step (length tasks) rate_limit) [].

(** ** [run_with_progress] and [update_progress_bar] *)

(** A Python [str] as its list of code points. *)
Definition pystr := list Z.

(** The fill literal of [update_progress_bar] as it stands in the source
    file: the UTF-8 bytes of U+2588 read back as cp1252, i.e. the three
    code points U+00E2, U+2013, U+02C6. *)
Definition fill_char : pystr := [226; 8211; 710]%Z.

Definition dash_char : pystr := [45]%Z.

(** [update_progress_bar(completed, total)]: [percent = (completed / total) * 100]
    raises [ZeroDivisionError] when [total == 0] ([None] here); otherwise
    [filled_length = int(bar_length * completed // total)] (Python's [//]
    on ints is floor division, as [Z.div]) and
    [bar = fill * filled_length + '-' * (bar_length - filled_length)]
    (a negative repeat count gives the empty string). The result is
    [filled_length] and [bar]; the printed line around [bar], with the
    float formatting of [percent], is not modelled. *)
Definition update_progress_bar (completed total : Z) : option (Z * pystr) :=
  if Z.eqb total 0 then None
  else
    let bar_length := 50%Z in
    let filled_length := (bar_length * completed / total)%Z in
    Some (filled_length,
          concat (repeat fill_char (Z.to_nat filled_length)) ++
          concat (repeat dash_char (Z.to_nat (bar_length - filled_length)))).

(** Observable events of [run_with_progress]: a call of a unit, a call
    [self.update_progress_bar(completed, total)], and the final [print()]. *)
Inductive progress_event : Type :=
| PInvoke (w : work)
| PBar (completed total : nat)
| PNewline.

(** [for task in tasks: result = await self.run_task(task, *args);
    results.append(result); completed_tasks += 1;
    self.update_progress_bar(completed_tasks, total_tasks)], then [print()]
    and [return results]; an exception of a unit propagates out of the loop. *)
Fixpoint progress_loop (tasks : list work) (total_tasks completed_tasks : nat)
    (results : list value) : list progress_event * res (list value) :=
  match tasks with
  | [] => ([PNewline], Ret results)
  | w :: rest =>
      match run_task w with
      | Raise e => ([PInvoke w], Raise e)
      | Ret v =>
          let (tr, r) := progress_loop rest total_tasks (S completed_tasks) (results ++ [v]) in
          (PInvoke w :: PBar (S completed_tasks) total_tasks :: tr, r)
      end
  end.

Definition run_with_progress (tasks : list work) : list progress_event * res (list value) :=
  progress_loop tasks (length tasks) 0 [].

(** ** [run_with_dependency_graph] *)

Module DepGraph.

(** The invocation trace: [Enter n] when [run_task_with_deps(n)] is entered
    (a ghost event, recorded to observe the order of the recursive calls),
    [Invoke n] when [self.run_task(tasks[n], ...)] is called. *)
Inductive event : Type :=
| Enter (n : string)
| Invoke (n : string).

(** [results] is the Python dict, in insertion order; [in_progress] the set. *)
Record gstate := {
  results : list (string * value);
  in_progress : list string;
  trace : list event
}.

(** Key lookup in a dict given as an association list. *)
Fixpoint lookup {A : Type} (k : string) (l : list (string * A)) : option A :=
  match l with
  | [] => None
  | (k', v) :: r => if String.eqb k k' then Some v else lookup k r
  end.

Definition deps_get (dependencies : list (string * list string)) (n : string)
  : list string :=
  match lookup n dependencies with Some ds => ds | None => [] end.

Definition cycle_msg (n : string) : string :=
  ("Circular dependency detected for task " ++ n)%string.

Definition log (ev : event) (st : gstate) : gstate :=
  {| results := results st; in_progress := in_progress st; trace := trace st ++ [ev] |}.

(** [for dep in deps: await run_task_with_deps(dep)], for a given resolver;
    an exception stops the loop and propagates. *)
Fixpoint run_each (r : string -> gstate -> option (res value * gstate))
    (ds : list string) (st : gstate) : option (res unit * gstate) :=
  match ds with
  | [] => Some (Ret tt, st)
  | d :: ds' =>
      match r d st with
      | None => None
      | Some (Raise e, st') => Some (Raise e, st')
      | Some (Ret _, st') => run_each r ds' st'
      end
  end.

Section Run.
Variable tasks : list (string * work).
Variable dependencies : list (string * list string).

(** [run_task_with_deps(task_name)]. The recursion is bounded by [fuel];
    [None] means the bound was hit (never happens with the bound used by
    [run_with_dependency_graph], see [resolve_fuel_enough]). *)
Fixpoint resolve (fuel : nat) (n : string) (st0 : gstate) : option (res value * gstate) :=
  match fuel with
  | 0 => None
  | S f =>
      let st := log (Enter n) st0 in
      match lookup n (results st) with
      | Some v => Some (Ret v, st)
      | None =>
          if existsb (String.eqb n) (in_progress st)
          then Some (Raise (ValueError (cycle_msg n)), st)
          else
            let st1 := {| results := results st;
                          in_progress := n :: in_progress st;
                          trace := trace st |} in
            match run_each (resolve f) (deps_get dependencies n) st1 with
            | None => None
            | Some (Raise e, s) => Some (Raise e, s)
            | Some (Ret _, s) =>
                match lookup n tasks with
                | None => Some (Raise (KeyError n), s)
                | Some w =>
                    let s' := log (Invoke n) s in
                    match run_task w with
                    | Raise e => Some (Raise e, s')
                    | Ret v =>
                        Some (Ret v, {| results := results s' ++ [(n, v)];
                                        in_progress := filter (fun m => negb (String.eqb n m))
                                                         (in_progress s');
                                        trace := trace s' |})
                    end
                end
            end
      end
  end.

(** Every name the run can meet. *)
Definition universe : list string :=
  map fst tasks ++ map fst dependencies ++ concat (map snd dependencies).

Definition init : gstate := {| results := []; in_progress := []; trace := [] |}.

(** [for task_name in tasks: await run_task_with_deps(task_name); return results].
    The result is the returned dict (or the exception) and the trace. *)
Definition run_with_dependency_graph : res (list (string * value)) * list event :=
  match run_each (resolve (S (length universe))) (map fst tasks) init with
  | None => (Raise RecursionError, [])
  | Some (Raise e, s) => (Raise e, trace s)
  | Some (Ret _, s) => (Ret (results s), trace s)
  end.

End Run.

(** [d] is a declared prerequisite of [n]; [reach] is its transitive closure. *)
Definition edge (dependencies : list (string * list string)) (n d : string) : Prop :=
  In d (deps_get dependencies n).

Inductive reach (dependencies : list (string * list string)) : string -> string -> Prop :=
| reach_one n d : edge dependencies n d -> reach dependencies n d
| reach_step n m d : edge dependencies n m -> reach dependencies m d -> reach dependencies n d.

(** The names whose units were invoked, in order. *)
Fixpoint invoked (tr : list event) : list string :=
  match tr with
  | [] => []
  | Invoke n :: r => n :: invoked r
  | Enter _ :: r => invoked r
  end.

(** Some task reaches a cycle through the declared prerequisites. *)
Definition cycle_reachable (tasks : list (string * work))
    (dependencies : list (string * list string)) : Prop :=
  exists t c, In t (map fst tasks) /\ (t = c \/ reach dependencies t c) /\
              reach dependencies c c.

(** Invariant of the results dict along a run: no name twice, every entry
    is the value its unit returned, every entry's prerequisites were stored
    before it, and the units invoked so far are exactly the stored names,
    in the same order. *)
Definition results_inv (tasks : list (string * work))
    (dependencies : list (string * list string)) (st : gstate) : Prop :=
  NoDup (map fst (results st)) /\
  (forall n v, In (n, v) (results st) ->
     exists w, lookup n tasks = Some w /\ run_task w = Ret v) /\
  (forall i n v d, nth_error (results st) i = Some (n, v) -> edge dependencies n d ->
     In d (map fst (firstn i (results st)))) /\
  invoked (trace st) = map fst (results st).

(** Every name stored between [st] and [st'] was entered, then its listed
    prerequisites were entered one after the other in listed order, then its
    unit was invoked. *)
Definition dec_from (dependencies : list (string * list string)) (st st' : gstate) : Prop :=
  forall t, lookup t (results st) = None -> lookup t (results st') <> None ->
  exists pre segs post,
    trace st' = trace st ++ pre ++ Enter t :: concat segs ++ Invoke t :: post /\
    Forall2 (fun d seg => exists seg', seg = Enter d :: seg') (deps_get dependencies t) segs.

End DepGraph.

(** ** [run_with_resource_management] over [asyncio.Semaphore(max_concurrent)]

    Each task is the coroutine [run_with_semaphore(task)]:
    [async with semaphore: return await self.run_task(task, *args)].
    The event loop interleaves them; a step is one of
    - [Start i]: coroutine [i] reaches [semaphore.acquire()]: if the counter
      is positive and nobody waits it decrements the counter and enters,
      otherwise it queues (FIFO);
    - [Finish i]: the unit of coroutine [i] returns or raises and the
      [async with] releases: the first waiter is woken and takes the slot
      ([_wake_up_next] decrements what [release] incremented), or, with no
      waiter, the counter goes up. *)

Module Sem.

Inductive phase : Type := Created | Waiting | Running | Finished.

Record sstate := {
  counter : nat;
  waiters : list nat;
  phases : nat -> phase
}.

Definition upd (f : nat -> phase) (i : nat) (p : phase) : nat -> phase :=
  fun j => if Nat.eqb j i then p else f j.

Definition is_running (p : phase) : bool :=
  match p with Running => true | _ => false end.

(** Number of the [n] tasks inside the [async with] block. *)
Definition running_count (n : nat) (st : sstate) : nat :=
  length (filter (fun i => is_running (phases st i)) (seq 0 n)).

Definition initial (k : nat) : sstate :=
  {| counter := k; waiters := []; phases := fun _ => Created |}.

Definition acquire (i : nat) (st : sstate) : sstate :=
  match counter st, waiters st with
  | S c, [] => {| counter := c; waiters := []; phases := upd (phases st) i Running |}
  | _, _ => {| counter := counter st; waiters := waiters st ++ [i];
               phases := upd (phases st) i Waiting |}
  end.

Definition release (i : nat) (st : sstate) : sstate :=
  let ph := upd (phases st) i Finished in
  match waiters st with
  | j :: ws => {| counter := counter st; waiters := ws; phases := upd ph j Running |}
  | [] => {| counter := S (counter st); waiters := []; phases := ph |}
  end.

Inductive step (n : nat) : sstate -> sstate -> Prop :=
| step_start i st :
    i < n -> phases st i = Created -> step n st (acquire i st)
| step_finish i st :
    i < n -> phases st i = Running -> step n st (release i st).

(** States reachable from the start of [asyncio.gather] over the [n] coroutines. *)
Inductive reachable (n k : nat) : sstate -> Prop :=
| reach_init : reachable n k (initial k)
| reach_step st st' : reachable n k st -> step n st st' -> reachable n k st'.

End Sem.

(** * Properties *)

(** Case analysis on every [Nat.eqb] test of the goal. *)
Ltac nat_eqb_cases :=
  repeat match goal with
  | |- context [Nat.eqb ?a ?b] => destruct (Nat.eqb_spec a b)
  end.

(** ** Timeout wrapper *)

Lemma wait_for_late (w : work) (t : Q) :
  (t < wdur w)%Q -> wait_for w t = Raise TimeoutError.
Proof.
  intros H. unfold wait_for.
  assert (Hle : Qle_bool t (wdur w) = true)
    by (apply Qle_bool_iff; apply Qlt_le_weak; exact H).
  now rewrite Hle.
Qed.

Lemma wait_for_early (w : work) (t : Q) :
  (wdur w < t)%Q -> wait_for w t = run_task w.
Proof.
  intros H. unfold wait_for.
  destruct (Qle_bool t (wdur w)) eqn:E; [|reflexivity].
  apply Qle_bool_iff in E. exfalso. apply (Qlt_not_le _ _ H E).
Qed.

(** C6: a unit that runs longer than the timeout makes [run_with_timeout]
    return the [None] sentinel; it does not raise, and what the unit would
    eventually produce plays no part. *)
Theorem run_with_timeout_slow (w : work) (t : Q) :
  (t < wdur w)%Q -> run_with_timeout w t = Ret VNone.
Proof.
  intros H. unfold run_with_timeout. now rewrite wait_for_late.
Qed.

(** C10: a unit that finishes in time and returns [None] gives the same
    result, [None], as a unit that overruns the timeout. *)
Theorem run_with_timeout_none_indistinguishable (w_ok w_slow : work) (t : Q) :
  (wdur w_ok < t)%Q -> wres w_ok = Ret VNone -> (t < wdur w_slow)%Q ->
  run_with_timeout w_ok t = Ret VNone /\
  run_with_timeout w_slow t = Ret VNone /\
  run_with_timeout w_ok t = run_with_timeout w_slow t.
Proof.
  intros Hok Hnone Hslow.
  assert (A : run_with_timeout w_ok t = Ret VNone).
  { unfold run_with_timeout. rewrite wait_for_early by exact Hok.
    unfold run_task. now rewrite Hnone. }
  assert (B : run_with_timeout w_slow t = Ret VNone)
    by (apply run_with_timeout_slow; exact Hslow).
  split; [exact A | split; [exact B | congruence]].
Qed.

(** ** Retry wrapper *)

Lemma retry_loop_all_fail (u : nat -> res value) (M : Z) (d : Q) :
  (forall k, is_ret (u k) = false) ->
  forall m s, 1 <= m -> s + m = Z.to_nat M ->
  retry_loop u M d (seq s m) =
    (flat_map (fun a => Attempt a :: (if Nat.ltb a (Z.to_nat M - 1) then [Sleep d] else []))
              (seq s m),
     u (Z.to_nat M - 1)).
Proof.
  intros Hfail m. induction m as [|m IH]; intros s Hm Hs; [lia|].
  cbn [seq retry_loop].
  specialize (Hfail s) as Hs'. destruct (u s) as [v|e] eqn:Eu; [discriminate|].
  destruct m as [|m'].
  - cbn [seq flat_map].
    replace (Z.of_nat s =? M - 1)%Z with true by (symmetry; apply Z.eqb_eq; lia).
    replace (Nat.ltb s (Z.to_nat M - 1)) with false by (symmetry; apply Nat.ltb_ge; lia).
    replace (Z.to_nat M - 1) with s by lia. rewrite Eu. reflexivity.
  - replace (Z.of_nat s =? M - 1)%Z with false by (symmetry; apply Z.eqb_neq; lia).
    rewrite (IH (S s)) by lia.
    cbn [flat_map].
    replace (Nat.ltb s (Z.to_nat M - 1)) with true by (symmetry; apply Nat.ltb_lt; lia).
    reflexivity.
Qed.

(** C5: with [max_retries = N >= 1] and a unit that fails on every call,
    the unit is called exactly [N] times (calls [0 .. N-1]), the fixed delay
    is slept after every attempt but the last, and the exception of the last
    attempt is raised. *)
Theorem run_with_retry_always_failing (u : nat -> res value) (N : Z) (d : Q) :
  (forall k, is_ret (u k) = false) -> (1 <= N)%Z ->
  run_with_retry u N d =
    (flat_map (fun a => Attempt a :: (if Nat.ltb a (Z.to_nat N - 1) then [Sleep d] else []))
              (seq 0 (Z.to_nat N)),
     u (Z.to_nat N - 1)) /\
  length (filter (fun ev => match ev with Attempt _ => true | Sleep _ => false end)
                 (fst (run_with_retry u N d))) = Z.to_nat N /\
  length (filter (fun ev => match ev with Attempt _ => false | Sleep _ => true end)
                 (fst (run_with_retry u N d))) = Z.to_nat N - 1 /\
  exists e, snd (run_with_retry u N d) = Raise e /\ u (Z.to_nat N - 1) = Raise e.
Proof.
  intros Hfail HN.
  assert (E : run_with_retry u N d =
    (flat_map (fun a => Attempt a :: (if Nat.ltb a (Z.to_nat N - 1) then [Sleep d] else []))
              (seq 0 (Z.to_nat N)),
     u (Z.to_nat N - 1))).
  { unfold run_with_retry. apply retry_loop_all_fail; [exact Hfail | lia | lia]. }
  rewrite E. cbn [fst snd].
  assert (Hcount : forall s m, s + m <= Z.to_nat N ->
    length (filter (fun ev => match ev with Attempt _ => true | Sleep _ => false end)
      (flat_map (fun a => Attempt a :: (if Nat.ltb a (Z.to_nat N - 1) then [Sleep d] else []))
                (seq s m))) = m /\
    length (filter (fun ev => match ev with Attempt _ => false | Sleep _ => true end)
      (flat_map (fun a => Attempt a :: (if Nat.ltb a (Z.to_nat N - 1) then [Sleep d] else []))
                (seq s m))) = (if Nat.eqb (s + m) (Z.to_nat N) then m - 1 else m)).
  { intros s m. revert s. induction m as [|m IH]; intros s Hsm.
    - cbn. destruct (Nat.eqb (s + 0) (Z.to_nat N)); split; reflexivity.
    - cbn [seq flat_map]. destruct (IH (S s) ltac:(lia)) as [IH1 IH2].
      destruct (Nat.ltb s (Z.to_nat N - 1)) eqn:Elt.
      + apply Nat.ltb_lt in Elt. cbn [app filter length]. rewrite IH1, IH2.
        split; [reflexivity|].
        nat_eqb_cases; lia.
      + apply Nat.ltb_ge in Elt. cbn [app filter length]. rewrite IH1, IH2.
        split; [reflexivity|]. nat_eqb_cases; lia. }
  destruct (Hcount 0 (Z.to_nat N) ltac:(lia)) as [C1 C2].
  rewrite Nat.eqb_refl in C2.
  split; [reflexivity|]. split; [exact C1|]. split; [exact C2|].
  specialize (Hfail (Z.to_nat N - 1)). destruct (u (Z.to_nat N - 1)) as [v|e];
    [discriminate | eauto].
Qed.

(** ** Parallel runner *)

Module GatherFacts.
Import Gather.

Lemma first_fail_app (outs : list (res value)) (p q : list nat) :
  first_fail outs (p ++ q) =
    match first_fail outs p with Some e => Some e | None => first_fail outs q end.
Proof.
  induction p as [|i p IH]; cbn; [reflexivity|].
  destruct (nth_error outs i) as [[v|e]|]; auto.
Qed.

(** The state of the outer future after the children in [p] have
    completed, in that order. *)
Definition expected (outs : list (res value)) (p : list nat) : option (res (list value)) :=
  match first_fail outs p with
  | Some e => Some (Raise e)
  | None => if Nat.eqb (length p) (length outs) then Some (Ret (collect outs)) else None
  end.

Lemma fold_on_done (outs : list (res value)) (p : list nat) :
  outs <> [] -> length p <= length outs ->
  nfinished (fold_left (on_done outs) p {| nfinished := 0; outer := None |}) = length p /\
  outer (fold_left (on_done outs) p {| nfinished := 0; outer := None |}) = expected outs p.
Proof.
  intros Hne. induction p as [|i p IH] using rev_ind; intros Hlen.
  - unfold expected. destruct outs; [contradiction|]. cbn. split; reflexivity.
  - rewrite length_app in Hlen. cbn [length] in Hlen.
    destruct (IH ltac:(lia)) as [Hn Ho].
    rewrite fold_left_app. cbn [fold_left].
    set (st := fold_left (on_done outs) p {| nfinished := 0; outer := None |}) in *.
    unfold on_done. rewrite Hn.
    unfold expected in *. rewrite first_fail_app, length_app. cbn [length first_fail].
    destruct (outer st) as [o|] eqn:Eo; cbn [nfinished outer].
    + destruct (first_fail outs p) as [e|].
      * split; [lia | exact Ho].
      * destruct (Nat.eqb_spec (length p) (length outs)); [lia | discriminate].
    + destruct (first_fail outs p) as [e|]; [discriminate|].
      destruct (nth_error outs i) as [[v|e]|];
        nat_eqb_cases; cbn [nfinished outer]; try lia; split; try reflexivity; lia.
Qed.

Lemma collect_map_ret (vs : list value) : collect (map Ret vs) = vs.
Proof. induction vs; cbn; congruence. Qed.

Lemma first_fail_map_ret (vs : list value) (p : list nat) :
  first_fail (map Ret vs) p = None.
Proof.
  induction p as [|i p IH]; cbn; [reflexivity|].
  rewrite nth_error_map. destruct (nth_error vs i); cbn; exact IH.
Qed.

Lemma first_fail_found (outs : list (res value)) (sched : list nat) (i : nat) (e : error) :
  In i sched -> nth_error outs i = Some (Raise e) ->
  exists e', first_fail outs sched = Some e'.
Proof.
  induction sched as [|j s IH]; cbn; [tauto|].
  intros [<-|Hin] Hi.
  - rewrite Hi. eauto.
  - destruct (nth_error outs j) as [[v|e'']|]; eauto.
Qed.

Lemma first_fail_source (outs : list (res value)) (sched : list nat) (e : error) :
  first_fail outs sched = Some e -> In (Raise e) outs.
Proof.
  induction sched as [|j s IH]; cbn; [discriminate|].
  destruct (nth_error outs j) as [[v|e']|] eqn:Ej; auto.
  intros H. injection H as <-. eapply nth_error_In. exact Ej.
Qed.

Lemma gather_nonempty (outs : list (res value)) (sched : list nat) :
  outs <> [] ->
  gather outs sched = outer (fold_left (on_done outs) sched {| nfinished := 0; outer := None |}).
Proof. destruct outs; [contradiction | reflexivity]. Qed.

End GatherFacts.

Lemma run_in_parallel_all_ok (tasks : list work) (sched : list nat)
    (vs : list value) :
  map run_task tasks = map Ret vs ->
  Permutation sched (seq 0 (length tasks)) ->
  run_in_parallel tasks sched = Some (Ret vs).
Proof.
  intros Hres Hperm. unfold run_in_parallel. rewrite Hres.
  assert (Hlen : length sched = length (map Ret vs)).
  { apply Permutation_length in Hperm. rewrite length_seq in Hperm.
    rewrite <- Hres, length_map. exact Hperm. }
  destruct vs as [|v vs']; [reflexivity|].
  rewrite GatherFacts.gather_nonempty by discriminate.
  destruct (GatherFacts.fold_on_done (map Ret (v :: vs')) sched ltac:(discriminate)
              ltac:(lia)) as [_ Ho].
  rewrite Ho. unfold GatherFacts.expected.
  rewrite GatherFacts.first_fail_map_ret, <- Hlen, Nat.eqb_refl, GatherFacts.collect_map_ret.
  reflexivity.
Qed.

(** C3: whatever the completion order, when every unit succeeds
    [run_in_parallel] returns the list of their results in submission order
    (the [i]-th result is the [i]-th unit's). *)
Theorem run_in_parallel_submission_order (tasks : list work) (sched : list nat)
    (vs : list value) :
  map run_task tasks = map Ret vs ->
  Permutation sched (seq 0 (length tasks)) ->
  run_in_parallel tasks sched = Some (Ret vs).
Proof. exact (run_in_parallel_all_ok tasks sched vs). Qed.

(** C4: whatever the completion order, if some unit fails then
    [run_in_parallel] raises (the exception of a failing unit) and returns
    no result list. *)
Theorem run_in_parallel_fail_fast (tasks : list work) (sched : list nat) :
  Permutation sched (seq 0 (length tasks)) ->
  (exists w e, In w tasks /\ run_task w = Raise e) ->
  exists e, run_in_parallel tasks sched = Some (Raise e) /\
            exists w, In w tasks /\ run_task w = Raise e.
Proof.
  intros Hperm (w & e & Hw & He).
  destruct (In_nth_error _ _ Hw) as [i Hi].
  assert (Hi' : nth_error (map run_task tasks) i = Some (Raise e))
    by (rewrite nth_error_map, Hi; cbn; congruence).
  assert (Hin : In i sched).
  { apply Permutation_sym in Hperm. eapply Permutation_in; [exact Hperm|].
    apply in_seq. split; [lia|]. apply nth_error_Some. congruence. }
  destruct (GatherFacts.first_fail_found _ _ _ _ Hin Hi') as [e' He'].
  exists e'. split.
  - unfold run_in_parallel.
    assert (Hne : map run_task tasks <> []) by (destruct tasks; [contradiction | discriminate]).
    rewrite GatherFacts.gather_nonempty by exact Hne.
    assert (Hlen : length sched <= length (map run_task tasks)).
    { rewrite length_map. apply Permutation_length in Hperm.
      rewrite length_seq in Hperm. lia. }
    destruct (GatherFacts.fold_on_done _ sched Hne Hlen) as [_ Ho].
    rewrite Ho. unfold GatherFacts.expected. rewrite He'. reflexivity.
  - apply GatherFacts.first_fail_source in He'.
    apply in_map_iff in He' as (w' & Hw'1 & Hw'2). eauto.
Qed.

(** ** Priority scheduler *)

Section SortFacts.
Context {A : Type} (key : A -> Z).

Lemma insert_asc_perm (x : A) (l : list A) : Permutation (insert_asc key x l) (x :: l).
Proof.
  induction l as [|y r IH]; cbn; [reflexivity|].
  destruct (Z.leb (key x) (key y)); [reflexivity|].
  rewrite IH. apply perm_swap.
Qed.

Lemma sort_asc_perm (l : list A) : Permutation (sort_asc key l) l.
Proof.
  induction l as [|x r IH]; cbn; [reflexivity|].
  rewrite insert_asc_perm. now apply perm_skip.
Qed.

(** Elements with a key other than [key x] do not see the insertion of
    [x]; those with key [key x] see [x] arrive in front of them. *)
Lemma filter_insert_asc (p : Z) (x : A) (l : list A) :
  filter (fun y => Z.eqb (key y) p) (insert_asc key x l) =
  (if Z.eqb (key x) p then [x] else []) ++ filter (fun y => Z.eqb (key y) p) l.
Proof.
  induction l as [|y r IH]; cbn.
  - destruct (Z.eqb (key x) p); reflexivity.
  - destruct (Z.leb (key x) (key y)) eqn:Hle; cbn.
    + destruct (Z.eqb (key x) p); reflexivity.
    + rewrite IH.
      destruct (Z.eqb_spec (key y) p), (Z.eqb_spec (key x) p); cbn; try reflexivity.
      apply Z.leb_gt in Hle. lia.
Qed.

Lemma filter_sort_asc (p : Z) (l : list A) :
  filter (fun y => Z.eqb (key y) p) (sort_asc key l) = filter (fun y => Z.eqb (key y) p) l.
Proof.
  induction l as [|x r IH]; cbn; [reflexivity|].
  rewrite filter_insert_asc, IH. destruct (Z.eqb (key x) p); reflexivity.
Qed.

Lemma insert_asc_sorted (x : A) (l : list A) :
  StronglySorted (fun a b => (key a <= key b)%Z) l ->
  StronglySorted (fun a b => (key a <= key b)%Z) (insert_asc key x l).
Proof.
  induction l as [|y r IH]; intros Hs; cbn.
  - constructor; constructor.
  - apply StronglySorted_inv in Hs as [Hr Hy].
    destruct (Z.leb_spec (key x) (key y)) as [Hle|Hgt].
    + constructor; [constructor; assumption|].
      constructor; [exact Hle|].
      eapply Forall_impl; [|exact Hy]. intros a Ha. cbn in Ha. lia.
    + constructor; [apply IH; exact Hr|].
      eapply Permutation_Forall; [symmetry; apply insert_asc_perm|].
      constructor; [lia | exact Hy].
Qed.

Lemma sort_asc_sorted (l : list A) :
  StronglySorted (fun a b => (key a <= key b)%Z) (sort_asc key l).
Proof.
  induction l as [|x r IH]; cbn; [constructor|]. now apply insert_asc_sorted.
Qed.

Lemma StronglySorted_snoc (R : A -> A -> Prop) (l : list A) (x : A) :
  StronglySorted R l -> Forall (fun y => R y x) l -> StronglySorted R (l ++ [x]).
Proof.
  induction l as [|y r IH]; intros Hs Hx; cbn.
  - constructor; constructor.
  - apply StronglySorted_inv in Hs as [Hr Hy]. inversion Hx; subst.
    constructor; [now apply IH|].
    apply Forall_app. split; [exact Hy | constructor; [assumption | constructor]].
Qed.

Lemma StronglySorted_rev (R : A -> A -> Prop) (l : list A) :
  StronglySorted R l -> StronglySorted (fun a b => R b a) (rev l).
Proof.
  induction l as [|x r IH]; intros Hs; cbn; [constructor|].
  apply StronglySorted_inv in Hs as [Hr Hx].
  apply StronglySorted_snoc; [now apply IH|].
  apply Forall_forall. intros y Hy. apply in_rev in Hy.
  rewrite Forall_forall in Hx. now apply Hx.
Qed.

Lemma py_sorted_desc_perm (l : list A) : Permutation (py_sorted_desc key l) l.
Proof.
  unfold py_sorted_desc. rewrite <- Permutation_rev, sort_asc_perm.
  symmetry. apply Permutation_rev.
Qed.

Lemma py_sorted_desc_sorted (l : list A) :
  StronglySorted (fun a b => (key b <= key a)%Z) (py_sorted_desc key l).
Proof.
  unfold py_sorted_desc.
  apply (StronglySorted_rev (fun a b => (key a <= key b)%Z)). apply sort_asc_sorted.
Qed.

Lemma py_sorted_desc_stable (p : Z) (l : list A) :
  filter (fun y => Z.eqb (key y) p) (py_sorted_desc key l) = filter (fun y => Z.eqb (key y) p) l.
Proof.
  unfold py_sorted_desc. rewrite filter_rev, filter_sort_asc, filter_rev, rev_involutive.
  reflexivity.
Qed.

End SortFacts.

Lemma run_sequential_prefix (ds : list descriptor) :
  (exists rest, ds = fst (run_sequential ds) ++ rest) /\
  (forall vs, snd (run_sequential ds) = Ret vs ->
     fst (run_sequential ds) = ds /\ map run_task (map d_task ds) = map Ret vs) /\
  ((forall d, In d ds -> is_ret (run_task (d_task d)) = true) ->
     exists vs, snd (run_sequential ds) = Ret vs).
Proof.
  induction ds as [|d r (IH1 & IH2 & IH3)]; cbn [run_sequential].
  - cbn. split; [exists []; reflexivity|]. split.
    + intros vs H. injection H as <-. split; reflexivity.
    + intros _. eauto.
  - destruct (run_task (d_task d)) as [v|e] eqn:Ed.
    + destruct (run_sequential r) as [tr rr] eqn:Er. cbn [fst snd] in *.
      split; [destruct IH1 as [rest ->]; exists rest; reflexivity|]. split.
      * intros vs H. destruct rr as [vs'|e]; [|discriminate].
        injection H as <-. destruct (IH2 vs' eq_refl) as [-> Hm].
        split; [reflexivity|]. cbn [map]. now rewrite Ed, Hm.
      * intros Hall. destruct IH3 as [vs' Hvs'].
        { intros d' Hd'. apply Hall. now right. }
        rewrite Hvs'. eauto.
    + cbn [fst snd]. split; [exists r; reflexivity|]. split.
      * intros vs H; discriminate.
      * intros Hall. specialize (Hall d (or_introl eq_refl)). now rewrite Ed in Hall.
Qed.

(** C7: [run_with_priority] orders the descriptors by a stable sort on
    descending priority (a permutation of the input, non-increasing in
    priority, and equal priorities kept in submission order), invokes the
    units one after the other in that order (stopping at the first
    exception), and, when it returns, returns their results in that order;
    it returns when every unit succeeds. *)
Theorem run_with_priority_order (ds : list descriptor) :
  let s := py_sorted_desc priority ds in
  Permutation s ds /\
  StronglySorted (fun a b => (priority b <= priority a)%Z) s /\
  (forall p, filter (fun d => Z.eqb (priority d) p) s = filter (fun d => Z.eqb (priority d) p) ds) /\
  (exists rest, s = fst (run_with_priority ds) ++ rest) /\
  (forall vs, snd (run_with_priority ds) = Ret vs ->
     fst (run_with_priority ds) = s /\ map run_task (map d_task s) = map Ret vs) /\
  ((forall d, In d ds -> is_ret (run_task (d_task d)) = true) ->
     exists vs, snd (run_with_priority ds) = Ret vs).
Proof.
  intros s. unfold run_with_priority. fold s.
  destruct (run_sequential_prefix s) as (H1 & H2 & H3).
  split; [apply py_sorted_desc_perm|].
  split; [apply py_sorted_desc_sorted|].
  split; [intros p; apply py_sorted_desc_stable|].
  split; [exact H1|]. split; [exact H2|].
  intros Hall. apply H3. intros d Hd. apply Hall.
  eapply Permutation_in; [apply py_sorted_desc_perm | exact Hd].
Qed.

(** ** Rate-limited batcher *)

Section RateLimit.
Variable tasks : list work.
Variable B : nat.
Variable P : Q.
Variable sch : nat -> list nat.
Variable vs : list value.
Hypothesis HB : 1 <= B.
Hypothesis Hres : map run_task tasks = map Ret vs.
Hypothesis Hsch : forall i, Permutation (sch i) (seq 0 (length (firstn B (skipn i tasks)))).

Lemma rl_loop_all_ok (m j : nat) (acc : list value) :
  rl_loop tasks B P sch (map (fun k => k * B) (seq j m)) acc =
  (flat_map (fun k => RunBatch (firstn B (skipn (k * B) tasks)) ::
                      (if Nat.ltb (k * B + B) (length tasks) then [Pause P] else []))
            (seq j m),
   Some (Ret (acc ++ flat_map (fun k => firstn B (skipn (k * B) vs)) (seq j m)))).
Proof.
  revert j acc. induction m as [|m IH]; intros j acc; cbn [seq map rl_loop flat_map].
  - now rewrite app_nil_r.
  - rewrite (run_in_parallel_all_ok _ _ (firstn B (skipn (j * B) vs))).
    2:{ rewrite <- !firstn_map, <- !skipn_map, Hres. reflexivity. }
    2:{ apply Hsch. }
    rewrite IH, app_assoc.
    destruct (Nat.ltb (j * B + B) (length tasks)); reflexivity.
Qed.

(** Consecutive slices of length [B] cover a list of length at most [m * B]. *)
Lemma chunks_concat {T : Type} (m : nat) (l : list T) :
  length l <= m * B ->
  flat_map (fun k => firstn B (skipn (k * B) l)) (seq 0 m) = l.
Proof.
  revert l. induction m as [|m IH]; intros l Hl.
  - cbn in *. destruct l; [reflexivity | cbn in Hl; lia].
  - cbn [seq flat_map]. rewrite Nat.mul_0_l, skipn_O.
    rewrite <- seq_shift, flat_map_concat_map, map_map.
    erewrite map_ext; [|intros k; replace (S k * B) with (k * B + B) by lia;
                          rewrite <- skipn_skipn; reflexivity].
    rewrite <- flat_map_concat_map, IH; [apply firstn_skipn|].
    rewrite length_skipn. cbn in Hl. lia.
Qed.

End RateLimit.

Lemma ceil_div_bounds (n B : nat) :
  1 <= B ->
  (n + B - 1) / B * B >= n /\ ((n + B - 1) / B - 1) * B < n \/ n = 0 /\ (n + B - 1) / B = 0.
Proof.
  intros HB.
  pose proof (Nat.div_mod (n + B - 1) B ltac:(lia)) as Hd.
  pose proof (Nat.mod_upper_bound (n + B - 1) B ltac:(lia)) as Hm.
  set (L := (n + B - 1) / B) in *. set (r := (n + B - 1) mod B) in *.
  destruct (Nat.eq_dec n 0) as [->|Hn].
  - right. split; [reflexivity|]. destruct L; [reflexivity|]. nia.
  - left. split; [nia|]. destruct L as [|L']; [nia|]. replace (S L' - 1) with L' by lia. nia.
Qed.

Lemma rl_pause_count (f : nat -> list work) (P : Q) (L m j : nat) :
  j + m = L ->
  length (filter (fun ev => match ev with Pause _ => true | RunBatch _ => false end)
     (flat_map (fun k => RunBatch (f k) :: (if Nat.ltb (k + 1) L then [Pause P] else []))
               (seq j m))) = m - 1.
Proof.
  revert j. induction m as [|m IH]; intros j Hj; [reflexivity|].
  cbn [seq flat_map]. rewrite filter_app, length_app, (IH (S j)) by lia.
  destruct (Nat.ltb_spec (j + 1) L); cbn; lia.
Qed.

(** C8: with batch size [B >= 1] and every unit succeeding, whatever the
    completion order inside each batch, [run_with_rate_limit] runs the
    consecutive slices [tasks[k*B : k*B+B]] for [k < ceil(n/B)] (they cover
    the input, all but the last have exactly [B] units, none is empty),
    sleeps [time_period] after every batch but the last, so
    [ceil(n/B) - 1] times, and returns all results in submission order. *)
Theorem run_with_rate_limit_batches (tasks : list work) (B : nat) (P : Q)
    (sch : nat -> list nat) (vs : list value) :
  1 <= B ->
  map run_task tasks = map Ret vs ->
  (forall i, Permutation (sch i) (seq 0 (length (firstn B (skipn i tasks))))) ->
  let L := (length tasks + B - 1) / B in
  let chunk := fun k => firstn B (skipn (k * B) tasks) in
  run_with_rate_limit tasks B P sch =
    (flat_map (fun k => RunBatch (chunk k) :: (if Nat.ltb (k + 1) L then [Pause P] else []))
              (seq 0 L),
     Some (Ret vs)) /\
  flat_map chunk (seq 0 L) = tasks /\
  (forall k, k + 1 < L -> length (chunk k) = B) /\
  (forall k, k < L -> 1 <= length (chunk k) <= B) /\
  length (filter (fun ev => match ev with Pause _ => true | RunBatch _ => false end)
                 (fst (run_with_rate_limit tasks B P sch))) = L - 1.
Proof.
  intros HB Hres Hsch L chunk.
  assert (Hlenv : length vs = length tasks)
    by (rewrite <- (length_map Ret vs), <- Hres, length_map; reflexivity).
  pose proof (ceil_div_bounds (length tasks) B HB) as Hc. fold L in Hc.
  assert (Harith : forall k, k < L -> (Nat.ltb (k * B + B) (length tasks) = Nat.ltb (k + 1) L)).
  { intros k Hk. destruct (Nat.ltb_spec (k * B + B) (length tasks)), (Nat.ltb_spec (k + 1) L);
      try reflexivity; destruct Hc as [[H1 H2]|[H1 H2]]; nia. }
  assert (Hcover : length tasks <= L * B) by (destruct Hc as [[H1 H2]|[H1 H2]]; lia).
  assert (E : run_with_rate_limit tasks B P sch =
    (flat_map (fun k => RunBatch (chunk k) :: (if Nat.ltb (k + 1) L then [Pause P] else []))
              (seq 0 L),
     Some (Ret vs))).
  { unfold run_with_rate_limit.
    replace (Nat.eqb B 0) with false by (symmetry; apply Nat.eqb_neq; lia).
    unfold py_range_step. fold L.
    erewrite rl_loop_all_ok by eassumption. rewrite app_nil_l.
    erewrite chunks_concat by (try eassumption; lia).
    f_equal. rewrite !flat_map_concat_map. f_equal. apply map_ext_in.
    intros k Hk. apply in_seq in Hk. rewrite Harith by lia. reflexivity. }
  split; [exact E|].
  split; [apply chunks_concat; assumption|].
  split.
  { intros k Hk. unfold chunk. rewrite length_firstn, length_skipn.
    destruct Hc as [[H1 H2]|[H1 H2]]; nia. }
  split.
  { intros k Hk. unfold chunk. rewrite length_firstn, length_skipn.
    destruct Hc as [[H1 H2]|[H1 H2]]; nia. }
  rewrite E. cbn [fst]. apply rl_pause_count. lia.
Qed.

(** ** Concurrency-bounded runner *)

Module SemFacts.
Import Sem.

Definition cnt (l : list nat) (f : nat -> phase) : nat :=
  length (filter (fun j => is_running (f j)) l).

Definition b (p : phase) : nat := if is_running p then 1 else 0.

Lemma cnt_upd_notin (l : list nat) (f : nat -> phase) (i : nat) (p : phase) :
  ~ In i l -> cnt l (upd f i p) = cnt l f.
Proof.
  intros Hi. unfold cnt. f_equal. apply filter_ext_in. intros j Hj.
  unfold upd. destruct (Nat.eqb_spec j i); [subst; contradiction | reflexivity].
Qed.

Lemma cnt_upd_in (l : list nat) (f : nat -> phase) (i : nat) (p : phase) :
  NoDup l -> In i l -> cnt l (upd f i p) + b (f i) = cnt l f + b p.
Proof.
  induction l as [|j r IH]; intros Hnd Hi; [destruct Hi|].
  inversion Hnd as [|? ? Hj Hnd']; subst.
  unfold cnt in *. cbn [filter].
  destruct (Nat.eqb_spec j i) as [->|Hne].
  - replace (upd f i p i) with p by (unfold upd; now rewrite Nat.eqb_refl).
    pose proof (cnt_upd_notin r f i p Hj) as Hn. unfold cnt in Hn.
    unfold b. destruct (is_running p), (is_running (f i)); cbn; lia.
  - destruct Hi as [Hi|Hi]; [congruence|].
    replace (upd f i p j) with (f j) by (unfold upd; now destruct (Nat.eqb_spec j i)).
    specialize (IH Hnd' Hi). destruct (is_running (f j)); cbn; lia.
Qed.

(** The slots in use plus the free counter never exceed the initial value. *)
Lemma step_slots (n k : nat) (st st' : sstate) :
  running_count n st + counter st <= k -> step n st st' ->
  running_count n st' + counter st' <= k.
Proof.
  intros Hinv Hs. unfold running_count in *. fold (cnt (seq 0 n) (phases st)) in Hinv.
  destruct Hs as [i st Hi Hc | i st Hi Hr].
  - assert (Hin : In i (seq 0 n)) by (apply in_seq; lia).
    unfold acquire.
    destruct (counter st) as [|c] eqn:Ec, (waiters st) as [|w ws] eqn:Ew; cbn [phases counter];
      fold (cnt (seq 0 n) (upd (phases st) i Waiting));
      fold (cnt (seq 0 n) (upd (phases st) i Running));
      pose proof (cnt_upd_in (seq 0 n) (phases st) i Waiting (seq_NoDup n 0) Hin) as U1;
      pose proof (cnt_upd_in (seq 0 n) (phases st) i Running (seq_NoDup n 0) Hin) as U2;
      unfold b in U1, U2; rewrite Hc in U1, U2; cbn in U1, U2; lia.
  - assert (Hin : In i (seq 0 n)) by (apply in_seq; lia).
    pose proof (cnt_upd_in (seq 0 n) (phases st) i Finished (seq_NoDup n 0) Hin) as U1.
    unfold b in U1. rewrite Hr in U1. cbn in U1.
    unfold release. destruct (waiters st) as [|j ws] eqn:Ew; cbn [phases counter].
    + fold (cnt (seq 0 n) (upd (phases st) i Finished)). lia.
    + fold (cnt (seq 0 n) (upd (upd (phases st) i Finished) j Running)).
      destruct (in_dec Nat.eq_dec j (seq 0 n)) as [Hj|Hj].
      * pose proof (cnt_upd_in (seq 0 n) (upd (phases st) i Finished) j Running
                      (seq_NoDup n 0) Hj) as U2.
        unfold b at 2 in U2. cbn in U2. lia.
      * rewrite cnt_upd_notin by exact Hj. lia.
Qed.

Lemma reachable_slots (n k : nat) (st : sstate) :
  reachable n k st -> running_count n st + counter st <= k.
Proof.
  induction 1 as [|st st' Hr IH Hs].
  - unfold running_count, initial. cbn [counter phases].
    rewrite (filter_ext_in _ (fun _ => false)) by reflexivity.
    clear. induction (seq 0 n) as [|x r IH]; cbn; lia.
  - eapply step_slots; eassumption.
Qed.

End SemFacts.

(** C9: in every state the coroutines of [run_with_resource_management]
    can reach, at most [max_concurrent] units are inside the semaphore; when
    a unit finishes while others are queued, the first queued one is
    admitted at once. *)
Theorem run_with_resource_management_bound (n k : nat) (st : Sem.sstate) :
  Sem.reachable n k st ->
  Sem.running_count n st <= k /\
  (forall i j ws, i < n -> Sem.phases st i = Sem.Running -> Sem.waiters st = j :: ws ->
     Sem.step n st (Sem.release i st) /\
     Sem.phases (Sem.release i st) j = Sem.Running /\ Sem.waiters (Sem.release i st) = ws).
Proof.
  intros Hr. split.
  - pose proof (SemFacts.reachable_slots n k st Hr). lia.
  - intros i j ws Hi Hrun Hw. split; [now apply Sem.step_finish|].
    unfold Sem.release. rewrite Hw. cbn [Sem.phases Sem.waiters].
    unfold Sem.upd. rewrite Nat.eqb_refl. split; reflexivity.
Qed.

(** ** Dependency graph runner *)

Module DepGraphFacts.
Import DepGraph.

Lemma lookup_app {A : Type} (k : string) (l1 l2 : list (string * A)) :
  lookup k (l1 ++ l2) = match lookup k l1 with Some v => Some v | None => lookup k l2 end.
Proof.
  induction l1 as [|[k' v'] r IH]; cbn; [reflexivity|].
  destruct (String.eqb k k'); [reflexivity | exact IH].
Qed.

Lemma lookup_None {A : Type} (k : string) (l : list (string * A)) :
  lookup k l = None <-> ~ In k (map fst l).
Proof.
  induction l as [|[k' v'] r IH]; cbn; [tauto|].
  destruct (String.eqb_spec k k') as [->|Hne].
  - split; [discriminate | tauto].
  - rewrite IH. split; [intros H [H'|H']; [congruence | tauto] | tauto].
Qed.

Lemma lookup_In {A : Type} (k : string) (v : A) (l : list (string * A)) :
  lookup k l = Some v -> In (k, v) l.
Proof.
  induction l as [|[k' v'] r IH]; cbn; [discriminate|].
  destruct (String.eqb_spec k k') as [->|Hne]; [intros H; injection H as ->; now left|].
  intros H; right; auto.
Qed.

Lemma In_lookup {A : Type} (k : string) (l : list (string * A)) :
  In k (map fst l) -> exists v, lookup k l = Some v.
Proof.
  intros H. destruct (lookup k l) as [v|] eqn:E; [eauto|].
  apply lookup_None in E. contradiction.
Qed.

Lemma existsb_eqb_In (n : string) (l : list string) :
  existsb (String.eqb n) l = true <-> In n l.
Proof.
  rewrite existsb_exists. split.
  - intros (x & Hx & E). apply String.eqb_eq in E. now subst.
  - intros H. exists n. split; [exact H | apply String.eqb_refl].
Qed.

Lemma filter_remove_notin (n : string) (l : list string) :
  ~ In n l -> filter (fun m => negb (String.eqb n m)) l = l.
Proof.
  induction l as [|m r IH]; cbn; intros H; [reflexivity|].
  destruct (String.eqb_spec n m) as [->|Hne]; [exfalso; tauto|].
  cbn. f_equal. apply IH. tauto.
Qed.

Lemma reach_edge_r (deps : list (string * list string)) (x y z : string) :
  reach deps x y -> edge deps y z -> reach deps x z.
Proof.
  induction 1 as [n d Hnd | n m d Hnm Hmd IH]; intros Hz.
  - eapply reach_step; [exact Hnd | now apply reach_one].
  - eapply reach_step; [exact Hnm | now apply IH].
Qed.

Lemma edge_universe (tasks : list (string * work)) (deps : list (string * list string))
    (n d : string) :
  edge deps n d -> In d (universe tasks deps).
Proof.
  unfold edge, deps_get, universe. intros H.
  destruct (lookup n deps) as [ds|] eqn:E; [|destruct H].
  apply lookup_In in E. apply in_or_app. right. apply in_or_app. right.
  apply in_concat. exists ds. split; [|exact H]. apply in_map_iff. now exists (n, ds).
Qed.

Section Frame.
Variable tasks : list (string * work).
Variable deps : list (string * list string).

(** [run_each] over a resolver that, on success, restores [in_progress],
    only appends results (never for a name in progress) and records the
    name it resolved. *)
Lemma run_each_ret (r : string -> gstate -> option (res value * gstate))
    (Hr : forall d s v s', r d s = Some (Ret v, s') ->
       in_progress s' = in_progress s /\
       (exists radd, results s' = results s ++ radd /\
          forall x, In x (map fst radd) -> ~ In x (in_progress s)) /\
       lookup d (results s') = Some v /\
       (exists seg, trace s' = trace s ++ Enter d :: seg))
    (ds : list string) (st st' : gstate) (u : unit) :
  run_each r ds st = Some (Ret u, st') ->
  in_progress st' = in_progress st /\
  (exists radd, results st' = results st ++ radd /\
     forall x, In x (map fst radd) -> ~ In x (in_progress st)) /\
  (forall d, In d ds -> lookup d (results st') <> None) /\
  (exists segs, trace st' = trace st ++ concat segs /\
     Forall2 (fun d seg => exists seg', seg = Enter d :: seg') ds segs).
Proof.
  revert st. induction ds as [|d ds IH]; intros st H; cbn in H.
  - injection H as _ <-. split; [reflexivity|].
    split; [exists []; rewrite app_nil_r; split; [reflexivity | intros x []]|].
    split; [intros d []|]. exists []. rewrite app_nil_r. split; [reflexivity | constructor].
  - destruct (r d st) as [[[v|e] s1]|] eqn:Er; try discriminate.
    destruct (Hr _ _ _ _ Er) as (Hp1 & (radd1 & Hr1 & Hd1) & Hl1 & (seg1 & Ht1)).
    destruct (IH s1 H) as (Hp2 & (radd2 & Hr2 & Hd2) & Hl2 & (segs & Ht2 & Hf)).
    split; [congruence|]. split.
    { exists (radd1 ++ radd2). split; [rewrite Hr2, Hr1, app_assoc; reflexivity|].
      intros x Hx. rewrite map_app in Hx. apply in_app_or in Hx as [Hx|Hx]; [now apply Hd1|].
      rewrite <- Hp1. now apply Hd2. }
    split.
    { intros d' [<-|Hd']; [|now apply Hl2].
      rewrite Hr2, lookup_app, Hl1. discriminate. }
    exists ((Enter d :: seg1) :: segs). split.
    + rewrite Ht2, Ht1. cbn [concat]. rewrite <- !app_assoc. reflexivity.
    + constructor; [eauto | exact Hf].
Qed.

Lemma resolve_ret (f : nat) :
  forall n st v st', resolve tasks deps f n st = Some (Ret v, st') ->
  in_progress st' = in_progress st /\
  (exists radd, results st' = results st ++ radd /\
     forall x, In x (map fst radd) -> ~ In x (in_progress st)) /\
  lookup n (results st') = Some v /\
  (exists seg, trace st' = trace st ++ Enter n :: seg).
Proof.
  induction f as [|f IH]; intros n st v st' H; [discriminate|].
  cbn [resolve log results in_progress trace] in H.
  destruct (lookup n (results st)) as [v0|] eqn:Ecache.
  - injection H as <- <-. cbn. split; [reflexivity|].
    split; [exists []; rewrite app_nil_r; split; [reflexivity | intros x []]|].
    split; [exact Ecache | exists []; reflexivity].
  - destruct (existsb (String.eqb n) (in_progress st)) eqn:Eip; [discriminate|].
    assert (Hnip : ~ In n (in_progress st))
      by (intros Hin; apply existsb_eqb_In in Hin; congruence).
    destruct (run_each (resolve tasks deps f) (deps_get deps n) _) as [[[u|e] s]|] eqn:Edeps;
      try discriminate.
    destruct (run_each_ret _ IH _ _ _ _ Edeps) as (Hp & (radd & Hr & Hd) & _ & (segs & Ht & _)).
    cbn [in_progress results trace] in Hp, Hr, Hd, Ht.
    destruct (lookup n tasks) as [w|]; [|discriminate].
    destruct (run_task w) as [v1|e]; [|discriminate].
    injection H as -> <-. cbn [in_progress results trace log].
    split; [rewrite Hp; cbn; rewrite String.eqb_refl; cbn; now apply filter_remove_notin|].
    split.
    { exists (radd ++ [(n, v)]). split; [rewrite Hr, app_assoc; reflexivity|].
      intros x Hx. rewrite map_app in Hx. apply in_app_or in Hx as [Hx|[<-|[]]]; [|exact Hnip].
      intros Hx'. apply (Hd x Hx). now right. }
    split.
    { rewrite lookup_app. replace (lookup n (results s)) with (@None value); [cbn; now rewrite String.eqb_refl|].
      symmetry. rewrite Hr, lookup_app, Ecache. apply lookup_None.
      intros Hin. apply (Hd n Hin). now left. }
    exists (concat segs ++ [Invoke n]). rewrite Ht, <- !app_assoc. reflexivity.
Qed.

(** The recursion depth is bounded by the number of names: with a fuel
    larger than the names not yet in progress, [resolve] never runs out. *)
Lemma resolve_fuel_enough (f : nat) :
  forall n st, NoDup (in_progress st) -> incl (in_progress st) (universe tasks deps) ->
  In n (universe tasks deps) -> length (universe tasks deps) < f + length (in_progress st) ->
  resolve tasks deps f n st <> None.
Proof.
  induction f as [|f IH]; intros n st Hnd Hincl Hn Hlt.
  - pose proof (NoDup_incl_length Hnd Hincl). cbn in Hlt. lia.
  - cbn [resolve log results in_progress trace].
    destruct (lookup n (results st)); [discriminate|].
    destruct (existsb (String.eqb n) (in_progress st)) eqn:Eip; [discriminate|].
    assert (Hnip : ~ In n (in_progress st))
      by (intros Hin; apply existsb_eqb_In in Hin; congruence).
    set (st1 := {| results := results st; in_progress := n :: in_progress st;
                   trace := trace st ++ [Enter n] |}).
    assert (Heach : forall ds s, (forall d, In d ds -> edge deps n d) ->
              in_progress s = in_progress st1 ->
              run_each (resolve tasks deps f) ds s <> None).
    { induction ds as [|d ds IHds]; intros s Hds Hps; cbn; [discriminate|].
      destruct (resolve tasks deps f d s) as [[[v|e] s1]|] eqn:Er.
      - apply (resolve_ret f) in Er as (Hp1 & _).
        apply IHds; [intros d' Hd'; apply Hds; now right | congruence].
      - discriminate.
      - exfalso. revert Er. apply IH.
        + rewrite Hps. cbn. now constructor.
        + rewrite Hps. cbn. intros x [<-|Hx]; [exact Hn | now apply Hincl].
        + apply (edge_universe tasks deps n). apply Hds. now left.
        + rewrite Hps. cbn. lia. }
    destruct (run_each (resolve tasks deps f) (deps_get deps n) st1) as [[[u|e] s]|] eqn:Edeps.
    + destruct (lookup n tasks); [destruct (run_task _)|]; discriminate.
    + discriminate.
    + exfalso. revert Edeps. apply Heach; [intros d Hd; exact Hd | reflexivity].
Qed.

Lemma invoked_app (a c : list event) : invoked (a ++ c) = invoked a ++ invoked c.
Proof. induction a as [|[m|m] r IH]; cbn; [reflexivity | exact IH | now rewrite IH]. Qed.

Lemma dec_trans (s1 s2 s3 : gstate) :
  dec_from deps s1 s2 -> dec_from deps s2 s3 ->
  (exists y, trace s2 = trace s1 ++ y) -> (exists x, trace s3 = trace s2 ++ x) ->
  dec_from deps s1 s3.
Proof.
  intros D12 D23 [y Hy] [x Hx] t Ht1 Ht3.
  destruct (lookup t (results s2)) as [v|] eqn:E2.
  - destruct (D12 t Ht1 ltac:(congruence)) as (pre & segs & post & Htr & Hf).
    exists pre, segs, (post ++ x). split; [|exact Hf].
    rewrite Hx, Htr. rewrite <- !app_assoc. cbn. rewrite <- !app_assoc. reflexivity.
  - destruct (D23 t E2 Ht3) as (pre & segs & post & Htr & Hf).
    exists (y ++ pre), segs, post. split; [|exact Hf].
    rewrite Htr, Hy, <- !app_assoc. reflexivity.
Qed.

Lemma run_each_inv (r : string -> gstate -> option (res value * gstate))
    (Hr : forall d s v s', results_inv tasks deps s -> r d s = Some (Ret v, s') ->
       results_inv tasks deps s' /\ dec_from deps s s' /\ exists x, trace s' = trace s ++ x)
    (ds : list string) (st st' : gstate) (u : unit) :
  results_inv tasks deps st -> run_each r ds st = Some (Ret u, st') ->
  results_inv tasks deps st' /\ dec_from deps st st' /\ exists x, trace st' = trace st ++ x.
Proof.
  revert st. induction ds as [|d ds IH]; intros st Hinv H; cbn in H.
  - injection H as _ <-. split; [exact Hinv|]. split.
    + intros t Ht1 Ht2. contradiction.
    + exists []. now rewrite app_nil_r.
  - destruct (r d st) as [[[v|e] s1]|] eqn:Er; try discriminate.
    destruct (Hr _ _ _ _ Hinv Er) as (Hinv1 & D1 & T1).
    destruct (IH s1 Hinv1 H) as (Hinv2 & D2 & T2).
    split; [exact Hinv2|]. split; [eapply dec_trans; eassumption|].
    destruct T1 as [x1 T1], T2 as [x2 T2]. exists (x1 ++ x2). now rewrite T2, T1, app_assoc.
Qed.

Lemma in_firstn_nth (l : list (string * value)) (i : nat) (y : string) :
  In y (map fst (firstn i l)) -> exists j vy, j < i /\ nth_error l j = Some (y, vy).
Proof.
  intros H. apply In_nth_error in H as [j Hj].
  rewrite nth_error_map, nth_error_firstn in Hj.
  destruct (Nat.ltb_spec j i) as [Hlt|]; [|discriminate].
  destruct (nth_error l j) as [[y' vy]|] eqn:Ej; [|discriminate].
  injection Hj as ->. eauto.
Qed.

Lemma resolve_inv (f : nat) :
  forall n st v st', results_inv tasks deps st -> resolve tasks deps f n st = Some (Ret v, st') ->
  results_inv tasks deps st' /\ dec_from deps st st' /\ exists x, trace st' = trace st ++ x.
Proof.
  induction f as [|f IH]; intros n st v st' Hinv H; [discriminate|].
  pose proof (resolve_ret (S f) n st v st' H) as (_ & (radd0 & Hr0 & _) & _ & (seg0 & Ht0)).
  cbn [resolve log results in_progress trace] in H.
  destruct Hinv as (Hnd & Hval & Htopo & Hinvk).
  destruct (lookup n (results st)) as [v0|] eqn:Ecache.
  - injection H as -> <-. unfold log. cbn [results trace].
    split; [|split].
    + split; [exact Hnd|]. split; [exact Hval|]. split; [exact Htopo|].
      simpl. rewrite invoked_app. cbn. now rewrite app_nil_r.
    + intros t Ht1 Ht2. contradiction.
    + eauto.
  - destruct (existsb (String.eqb n) (in_progress st)) eqn:Eip; [discriminate|].
    set (st1 := {| results := results st; in_progress := n :: in_progress st;
                   trace := trace st ++ [Enter n] |}) in H.
    destruct (run_each (resolve tasks deps f) (deps_get deps n) st1) as [[[u|e] s]|] eqn:Edeps;
      try discriminate.
    assert (Hinv1 : results_inv tasks deps st1).
    { split; [exact Hnd|]. split; [exact Hval|]. split; [exact Htopo|].
      cbn [trace results st1]. rewrite invoked_app. cbn. now rewrite app_nil_r. }
    destruct (run_each_inv _ IH _ _ _ _ Hinv1 Edeps) as ((Snd & Sval & Stopo & Sinvk) & Ds & _).
    destruct (run_each_ret _ (resolve_ret f) _ _ _ _ Edeps)
      as (_ & (radd & Hr & Hd) & Hl & (segs & Ht & Hf)).
    cbn [in_progress results trace st1] in Hr, Hd, Ht.
    destruct (lookup n tasks) as [w|] eqn:Ew; [|discriminate].
    destruct (run_task w) as [v1|e] eqn:Erw; [|discriminate].
    injection H as -> <-. cbn [results trace in_progress log].
    assert (Hns : ~ In n (map fst (results s))).
    { rewrite Hr, map_app. intros Hin. apply in_app_or in Hin as [Hin|Hin].
      - apply lookup_None in Ecache. contradiction.
      - apply (Hd n Hin). now left. }
    split; [|split].
    + split; [|split; [|split]].
      * simpl. rewrite map_app. apply NoDup_app; [exact Snd | constructor; [intros [] | constructor]|].
        intros a Ha [<-|[]]. contradiction.
      * intros m v' Hin. apply in_app_or in Hin as [Hin|[Heq|[]]]; [now apply Sval|].
        injection Heq as <- <-. eauto.
      * intros i m v' d Hi Hedge. cbn [results] in Hi |- *.
        destruct (Nat.ltb_spec i (length (results s))) as [Hlt|Hge].
        -- rewrite nth_error_app1 in Hi by exact Hlt.
           rewrite firstn_app. replace (i - length (results s)) with 0 by lia.
           cbn [firstn]. rewrite app_nil_r. eapply Stopo; eassumption.
        -- rewrite nth_error_app2 in Hi by exact Hge.
           destruct (i - length (results s)) as [|k] eqn:Ek; [|destruct k; discriminate].
           cbn in Hi. injection Hi as <- _.
           replace i with (length (results s) + 0) by lia.
           rewrite firstn_app_2. cbn [firstn]. rewrite app_nil_r.
           destruct (lookup d (results s)) as [vd|] eqn:E; [|exfalso; exact (Hl d Hedge E)].
           apply lookup_In in E. now apply (in_map fst) in E.
      * cbn [results trace]. rewrite invoked_app, Sinvk, map_app. reflexivity.
    + intros t Ht1 Ht2. cbn [results trace] in Ht2 |- *.
      destruct (lookup t (results s)) as [vt|] eqn:Ets.
      * destruct (Ds t Ht1 ltac:(congruence)) as (pre & segs' & post & Htr & Hf').
        exists (Enter n :: pre), segs', (post ++ [Invoke n]). split; [|exact Hf'].
        rewrite Htr. cbn [trace st1]. rewrite <- !app_assoc. cbn. rewrite <- !app_assoc. reflexivity.
      * rewrite lookup_app, Ets in Ht2. cbn in Ht2.
        destruct (String.eqb_spec t n) as [->|]; [|contradiction].
        exists [], segs, []. split; [|exact Hf].
        rewrite Ht. cbn [trace st1]. rewrite <- !app_assoc. reflexivity.
    + eauto.
Qed.

(** [run_each] never runs out of fuel when no resolver started from the
    current [in_progress] set does, since successes restore that set. *)
Lemma run_each_none (r : string -> gstate -> option (res value * gstate)) (ip : list string)
    (Hret : forall d s v s', r d s = Some (Ret v, s') -> in_progress s' = in_progress s) :
  forall ds, (forall d s, In d ds -> in_progress s = ip -> r d s <> None) ->
  forall st, in_progress st = ip -> run_each r ds st <> None.
Proof.
  induction ds as [|d ds IH]; intros Hnn st Hst; cbn; [discriminate|].
  destruct (r d st) as [[[v|e] s1]|] eqn:Er.
  - apply IH; [intros d' s Hd' Hs; apply Hnn; [now right | exact Hs]|].
    rewrite (Hret _ _ _ _ Er). exact Hst.
  - discriminate.
  - exfalso. exact (Hnn d st (or_introl eq_refl) Hst Er).
Qed.

(** An exception out of [run_each] is an exception of one resolver call,
    started from the same [in_progress] set. *)
Lemma run_each_raise (r : string -> gstate -> option (res value * gstate)) (ip : list string)
    (Q : error -> Prop)
    (Hret : forall d s v s', r d s = Some (Ret v, s') -> in_progress s' = in_progress s) :
  forall ds st e st',
  (forall d s e s', In d ds -> in_progress s = ip -> r d s = Some (Raise e, s') -> Q e) ->
  in_progress st = ip -> run_each r ds st = Some (Raise e, st') -> Q e.
Proof.
  induction ds as [|d ds IH]; intros st e st' Hq Hst H; cbn in H; [discriminate|].
  destruct (r d st) as [[[v|e1] s1]|] eqn:Er; try discriminate.
  - eapply (IH s1); [| |exact H].
    + intros d' s e' s' Hd'. apply Hq. now right.
    + rewrite (Hret _ _ _ _ Er). exact Hst.
  - injection H as <- _. exact (Hq d st e1 s1 (or_introl eq_refl) Hst Er).
Qed.

(** When every listed prerequisite is a task and every unit succeeds, the
    only exception [resolve] can raise is the cycle error, for a name that
    reaches itself. The names in progress all reach the name resolved. *)
Lemma resolve_raise
    (Hnames : forall n d, edge deps n d -> In d (map fst tasks))
    (Hok : forall n w, In (n, w) tasks -> is_ret (run_task w) = true) (f : nat) :
  forall n st e st', (forall p, In p (in_progress st) -> reach deps p n) ->
  In n (map fst tasks) -> resolve tasks deps f n st = Some (Raise e, st') ->
  exists x, e = ValueError (cycle_msg x) /\ reach deps x x /\ In x (map fst tasks).
Proof.
  induction f as [|f IH]; intros n st e st' Hip Hn H; [discriminate|].
  cbn [resolve log results in_progress trace] in H.
  destruct (lookup n (results st)) as [v0|]; [discriminate|].
  destruct (existsb (String.eqb n) (in_progress st)) eqn:Eip.
  - injection H as <- _. exists n. split; [reflexivity|].
    split; [apply Hip; now apply existsb_eqb_In | exact Hn].
  - destruct (run_each (resolve tasks deps f) (deps_get deps n) _) as [[[u|e'] s]|] eqn:Edeps;
      [| |discriminate].
    + destruct (In_lookup n tasks Hn) as [w Ew]. rewrite Ew in H.
      pose proof (Hok n w (lookup_In _ _ _ Ew)) as Hw.
      destruct (run_task w) as [v|e'']; [discriminate | cbn in Hw; discriminate].
    + injection H as <- _. revert Edeps.
      apply (run_each_raise _ (n :: in_progress st)
               (fun e => exists x, e = ValueError (cycle_msg x) /\ reach deps x x /\
                                   In x (map fst tasks))
               (fun d s v s' Hr => proj1 (resolve_ret f d s v s' Hr))); [|reflexivity].
      intros d s1 e0 s0 Hd Hs Hr. apply (IH d s1 e0 s0); [| exact (Hnames n d Hd) | exact Hr].
      rewrite Hs. intros p [<-|Hp]; [now apply reach_one|].
      eapply reach_edge_r; [apply Hip, Hp | exact Hd].
Qed.

Lemma init_inv : results_inv tasks deps init.
Proof.
  split; [constructor|]. split; [intros n v []|].
  split; [intros i n v d H; destruct i; discriminate | reflexivity].
Qed.

(** The top-level loop never runs out of fuel. *)
Lemma run_top_not_none :
  run_each (resolve tasks deps (S (length (universe tasks deps)))) (map fst tasks) init <> None.
Proof.
  apply (run_each_none _ [] (fun d s v s' Hr => proj1 (resolve_ret _ d s v s' Hr)));
    [|reflexivity].
  intros d s Hd Hs. apply resolve_fuel_enough; try rewrite Hs.
  - constructor.
  - intros x [].
  - unfold universe. apply in_or_app. now left.
  - cbn. lia.
Qed.

(** A successful top-level loop ends in a state satisfying the invariant,
    with every task name stored. *)
Lemma run_top_ret (u : unit) (s : gstate) :
  run_each (resolve tasks deps (S (length (universe tasks deps)))) (map fst tasks) init
    = Some (Ret u, s) ->
  results_inv tasks deps s /\ dec_from deps init s /\
  (forall d, In d (map fst tasks) -> In d (map fst (results s))).
Proof.
  intros H. destruct (run_each_inv _ (resolve_inv _) _ _ _ _ init_inv H) as (Hi & Hd & _).
  split; [exact Hi|]. split; [exact Hd|].
  destruct (run_each_ret _ (resolve_ret _) _ _ _ _ H) as (_ & _ & Hl & _).
  intros d Hd'. destruct (lookup d (results s)) as [v|] eqn:E; [|exfalso; exact (Hl d Hd' E)].
  apply lookup_In in E. apply in_map_iff. now exists (d, v).
Qed.

(** An exception out of the top-level loop, when every listed prerequisite is a
    task and every unit succeeds, is the cycle error of a name on a cycle. *)
Lemma run_top_raise
    (Hnames : forall n d, edge deps n d -> In d (map fst tasks))
    (Hok : forall n w, In (n, w) tasks -> is_ret (run_task w) = true) (e : error) (s : gstate) :
  run_each (resolve tasks deps (S (length (universe tasks deps)))) (map fst tasks) init
    = Some (Raise e, s) ->
  exists x, e = ValueError (cycle_msg x) /\ reach deps x x /\ In x (map fst tasks).
Proof.
  intros H.
  apply (run_each_raise _ [] (fun e => exists x, e = ValueError (cycle_msg x) /\
                                         reach deps x x /\ In x (map fst tasks))
           (fun d s0 v s' Hr => proj1 (resolve_ret (S (length (universe tasks deps))) d s0 v s' Hr))
           (map fst tasks) init e s);
    [|reflexivity | exact H].
  intros d s0 e0 s1 Hd Hs Hr.
  apply (resolve_raise Hnames Hok (S (length (universe tasks deps))) d s0 e0 s1); [rewrite Hs; intros p [] | exact Hd | exact Hr].
Qed.

(** Along a stored list whose entries come after their prerequisites, a
    name reached from an entry is stored strictly before it. *)
Lemma reach_index (R : list (string * value))
    (Htopo : forall i n v d, nth_error R i = Some (n, v) -> edge deps n d ->
               In d (map fst (firstn i R)))
    (x y : string) :
  reach deps x y -> forall i vx, nth_error R i = Some (x, vx) ->
  exists j vy, j < i /\ nth_error R j = Some (y, vy).
Proof.
  induction 1 as [n d Hnd | n m d Hnm Hmd IH]; intros i vx Hi.
  - exact (in_firstn_nth R i d (Htopo i n vx d Hi Hnd)).
  - destruct (in_firstn_nth R i m (Htopo i n vx m Hi Hnm)) as (j & vm & Hj & Ej).
    destruct (IH j vm Ej) as (k & vy & Hk & Ek). exists k, vy. split; [lia | exact Ek].
Qed.

Lemma nodup_key_index (R : list (string * value)) (i j : nat) (k : string) (a b : value) :
  NoDup (map fst R) -> nth_error R i = Some (k, a) -> nth_error R j = Some (k, b) -> i = j.
Proof.
  intros Hnd Hi Hj. apply (proj1 (NoDup_nth_error _) Hnd i j).
  - rewrite length_map. apply nth_error_Some. congruence.
  - rewrite !nth_error_map, Hi, Hj. reflexivity.
Qed.

Lemma stored_index (R : list (string * value)) (c : string) :
  In c (map fst R) -> exists i vc, nth_error R i = Some (c, vc).
Proof.
  intros Hc. apply In_nth_error in Hc as [i Hi]. rewrite nth_error_map in Hi.
  destruct (nth_error R i) as [[c' vc]|] eqn:Ei; [|discriminate].
  injection Hi as ->. eauto.
Qed.

(** No stored name lies on a cycle, and the stored names are closed under
    [reach]. *)
Lemma no_cycle_in_results (s : gstate) :
  results_inv tasks deps s -> forall c, In c (map fst (results s)) -> ~ reach deps c c.
Proof.
  intros (Hnd & _ & Htopo & _) c Hc Hcc.
  destruct (stored_index _ _ Hc) as (i & vc & Ei).
  destruct (reach_index _ Htopo _ _ Hcc i vc Ei) as (j & vy & Hj & Ej).
  pose proof (nodup_key_index _ _ _ _ _ _ Hnd Ej Ei). lia.
Qed.

Lemma reach_results (s : gstate) (t c : string) :
  results_inv tasks deps s -> In t (map fst (results s)) -> reach deps t c ->
  In c (map fst (results s)).
Proof.
  intros (_ & _ & Htopo & _) Ht Htc.
  destruct (stored_index _ _ Ht) as (i & vt & Ei).
  destruct (reach_index _ Htopo _ _ Htc i vt Ei) as (j & vy & _ & Ej).
  apply nth_error_In in Ej. apply in_map_iff. now exists (c, vy).
Qed.

End Frame.
End DepGraphFacts.

(** C1 (as amended): when some task reaches a cycle of declared
    prerequisites, [run_with_dependency_graph] raises and returns no result
    mapping. When moreover every listed prerequisite is a task and every unit
    succeeds, the exception is [ValueError("Circular dependency detected for
    task x")] for a task [x] lying on a cycle. *)
Theorem run_with_dependency_graph_cycle (tasks : list (string * work))
    (deps : list (string * list string)) :
  DepGraph.cycle_reachable tasks deps ->
  (exists e tr, DepGraph.run_with_dependency_graph tasks deps = (Raise e, tr)) /\
  ((forall n d, DepGraph.edge deps n d -> In d (map fst tasks)) ->
   (forall n w, In (n, w) tasks -> is_ret (run_task w) = true) ->
   exists x tr,
     DepGraph.run_with_dependency_graph tasks deps
       = (Raise (ValueError (DepGraph.cycle_msg x)), tr) /\
     DepGraph.reach deps x x /\ In x (map fst tasks)).
Proof.
  intros (t & c & Ht & Htc & Hcc). unfold DepGraph.run_with_dependency_graph.
  assert (Hnoret : forall u s,
    DepGraph.run_each (DepGraph.resolve tasks deps (S (length (DepGraph.universe tasks deps))))
      (map fst tasks) DepGraph.init <> Some (Ret u, s)).
  { intros u s E. destruct (DepGraphFacts.run_top_ret _ _ _ _ E) as (Hi & _ & Hall).
    apply (DepGraphFacts.no_cycle_in_results _ _ _ Hi c); [|exact Hcc].
    destruct Htc as [<-|Htc]; [now apply Hall|].
    eapply DepGraphFacts.reach_results; [exact Hi | apply Hall, Ht | exact Htc]. }
  destruct (DepGraph.run_each _ (map fst tasks) DepGraph.init) as [[[u|e] s]|] eqn:E.
  - exfalso. exact (Hnoret u s eq_refl).
  - split; [eauto|]. intros Hn Hok.
    destruct (DepGraphFacts.run_top_raise _ _ Hn Hok _ _ E) as (x & -> & Hx & Hxt).
    eauto.
  - exfalso. exact (DepGraphFacts.run_top_not_none _ _ E).
Qed.

(** C2: with an acyclic dependency map whose names are all tasks, and units
    that succeed, [run_with_dependency_graph] returns a mapping whose keys
    are exactly the task names, each once; the units invoked are exactly
    those keys, each once, in the mapping's order; every entry is its unit's
    result and comes after the entries of its prerequisites; and for every
    task, its resolution is entered, then each of its listed prerequisites is
    resolved in listed order, then its unit is invoked. *)
Theorem run_with_dependency_graph_acyclic (tasks : list (string * work))
    (deps : list (string * list string)) :
  (forall n, ~ DepGraph.reach deps n n) ->
  (forall n d, DepGraph.edge deps n d -> In d (map fst tasks)) ->
  (forall n w, In (n, w) tasks -> is_ret (run_task w) = true) ->
  exists R tr, DepGraph.run_with_dependency_graph tasks deps = (Ret R, tr) /\
    (forall n, In n (map fst R) <-> In n (map fst tasks)) /\
    NoDup (map fst R) /\
    DepGraph.invoked tr = map fst R /\
    (forall n v, In (n, v) R -> exists w, DepGraph.lookup n tasks = Some w /\ run_task w = Ret v) /\
    (forall i n v d, nth_error R i = Some (n, v) -> DepGraph.edge deps n d ->
       In d (map fst (firstn i R))) /\
    (forall n, In n (map fst tasks) ->
       exists pre segs post,
         tr = pre ++ DepGraph.Enter n :: concat segs ++ DepGraph.Invoke n :: post /\
         Forall2 (fun d seg => exists seg', seg = DepGraph.Enter d :: seg')
           (DepGraph.deps_get deps n) segs).
Proof.
  intros Hac Hn Hok. unfold DepGraph.run_with_dependency_graph.
  destruct (DepGraph.run_each _ (map fst tasks) DepGraph.init) as [[[u|e] s]|] eqn:E.
  - destruct (DepGraphFacts.run_top_ret _ _ _ _ E)
      as ((Hnd & Hval & Htopo & Hinvk) & Hdec & Hall).
    exists (DepGraph.results s), (DepGraph.trace s). split; [reflexivity|].
    split.
    { intros n. split; [intros Hin | apply Hall].
      apply in_map_iff in Hin as ([n' v] & <- & Hin).
      destruct (Hval _ _ Hin) as (w & Ew & _). apply DepGraphFacts.lookup_In in Ew.
      apply in_map_iff. now exists (n', w). }
    split; [exact Hnd|]. split; [exact Hinvk|]. split; [exact Hval|]. split; [exact Htopo|].
    intros n Hin.
    assert (Hl : DepGraph.lookup n (DepGraph.results s) <> None).
    { intros Hnone. apply DepGraphFacts.lookup_None in Hnone. exact (Hnone (Hall n Hin)). }
    destruct (Hdec n eq_refl Hl) as (pre & segs & post & Htr & Hf).
    exists pre, segs, post. split; [exact Htr | exact Hf].
  - exfalso. destruct (DepGraphFacts.run_top_raise _ _ Hn Hok _ _ E) as (x & _ & Hx & _).
    exact (Hac x Hx).
  - exfalso. exact (DepGraphFacts.run_top_not_none _ _ E).
Qed.

(** C1, as stated: a counterexample. With tasks [{C: failing, A: noop,
    B: noop}] and dependencies [{A: [B], B: [A]}], a cycle is reachable
    from a task, yet the run raises the failing unit's exception, not a
    cycle-detected error: [C] comes first in the mapping and its failure
    ends the run before the cycle is met. *)
Lemma run_with_dependency_graph_failing_unit_first :
  let tasks := [("C"%string, {| wname := "C"; wdur := 0; wres := Raise (Exc "boom") |});
                ("A"%string, {| wname := "A"; wdur := 0; wres := Ret VNone |});
                ("B"%string, {| wname := "B"; wdur := 0; wres := Ret VNone |})] in
  let deps := [("A"%string, ["B"%string]); ("B"%string, ["A"%string])] in
  DepGraph.cycle_reachable tasks deps /\
  fst (DepGraph.run_with_dependency_graph tasks deps) = Raise (Exc "boom").
Proof.
  intros tasks deps. split.
  - exists "A"%string, "A"%string. split; [cbn; auto|]. split; [now left|].
    apply DepGraph.reach_step with "B"%string; [vm_compute; now left|].
    apply DepGraph.reach_one. vm_compute. now left.
  - vm_compute. reflexivity.
Qed.

(** * Instances *)

(** A unit finishing after 2 seconds with a timeout of 1 second. *)
Lemma run_with_timeout_slow_witness :
  run_with_timeout {| wname := "slow"; wdur := 2; wres := Ret (VInt 7) |} 1 = Ret VNone.
Proof. apply run_with_timeout_slow. vm_compute. reflexivity. Defined.

(** A unit returning [None] after 1 second and one running 3 seconds, with a
    timeout of 2 seconds. *)
Lemma run_with_timeout_none_indistinguishable_witness :
  let w_ok := {| wname := "ok"; wdur := 1; wres := Ret VNone |} in
  let w_slow := {| wname := "slow"; wdur := 3; wres := Ret (VInt 7) |} in
  run_with_timeout w_ok 2 = Ret VNone /\
  run_with_timeout w_slow 2 = Ret VNone /\
  run_with_timeout w_ok 2 = run_with_timeout w_slow 2.
Proof.
  intros w_ok w_slow.
  apply run_with_timeout_none_indistinguishable; [vm_compute; reflexivity | reflexivity |
                                                  vm_compute; reflexivity].
Defined.

(** A unit failing on every call, [max_retries = 3], delay 1: three calls,
    two sleeps, the third call's exception. *)
Lemma run_with_retry_always_failing_witness :
  let u := fun k : nat => @Raise value (Exc "down") in
  run_with_retry u 3 1 =
    (flat_map (fun a => Attempt a :: (if Nat.ltb a (Z.to_nat 3 - 1) then [Sleep 1] else []))
              (seq 0 (Z.to_nat 3)),
     u (Z.to_nat 3 - 1)) /\
  length (filter (fun ev => match ev with Attempt _ => true | Sleep _ => false end)
                 (fst (run_with_retry u 3 1))) = Z.to_nat 3 /\
  length (filter (fun ev => match ev with Attempt _ => false | Sleep _ => true end)
                 (fst (run_with_retry u 3 1))) = Z.to_nat 3 - 1 /\
  exists e, snd (run_with_retry u 3 1) = Raise e /\ u (Z.to_nat 3 - 1) = Raise e.
Proof.
  intros u. apply run_with_retry_always_failing; [intros k; reflexivity | lia].
Defined.

(** Two succeeding units, the second completing first. *)
Lemma run_in_parallel_submission_order_witness :
  run_in_parallel [{| wname := "a"; wdur := 2; wres := Ret (VInt 1) |};
                   {| wname := "b"; wdur := 1; wres := Ret (VInt 2) |}] [1; 0]
    = Some (Ret [VInt 1; VInt 2]).
Proof.
  apply run_in_parallel_submission_order; [reflexivity | apply perm_swap].
Defined.

(** A succeeding unit and a failing one, the failing one completing first. *)
Lemma run_in_parallel_fail_fast_witness :
  let tasks := [{| wname := "a"; wdur := 2; wres := Ret (VInt 1) |};
                {| wname := "b"; wdur := 1; wres := Raise (Exc "boom") |}] in
  exists e, run_in_parallel tasks [1; 0] = Some (Raise e) /\
            exists w, In w tasks /\ run_task w = Raise e.
Proof.
  intros tasks. apply run_in_parallel_fail_fast; [apply perm_swap|].
  exists {| wname := "b"; wdur := 1; wres := Raise (Exc "boom") |}, (Exc "boom").
  split; [right; left; reflexivity | reflexivity].
Defined.

(** Five succeeding units in batches of two, each batch completing in
    reverse order. *)
Lemma run_with_rate_limit_batches_witness :
  let tasks := map (fun z => {| wname := "t"; wdur := 1; wres := Ret (VInt z) |})
                   [1; 2; 3; 4; 5]%Z in
  let vs := map VInt [1; 2; 3; 4; 5]%Z in
  let sch := fun i => rev (seq 0 (length (firstn 2 (skipn i tasks)))) in
  let L := (length tasks + 2 - 1) / 2 in
  let chunk := fun k => firstn 2 (skipn (k * 2) tasks) in
  run_with_rate_limit tasks 2 1 sch =
    (flat_map (fun k => RunBatch (chunk k) :: (if Nat.ltb (k + 1) L then [Pause 1] else []))
              (seq 0 L),
     Some (Ret vs)) /\
  flat_map chunk (seq 0 L) = tasks /\
  (forall k, k + 1 < L -> length (chunk k) = 2) /\
  (forall k, k < L -> 1 <= length (chunk k) <= 2) /\
  length (filter (fun ev => match ev with Pause _ => true | RunBatch _ => false end)
                 (fst (run_with_rate_limit tasks 2 1 sch))) = L - 1.
Proof.
  intros tasks vs sch.
  apply (run_with_rate_limit_batches tasks 2 1 sch vs);
    [lia | reflexivity | intros i; apply Permutation_sym, Permutation_rev].
Defined.

(** Two tasks under [Semaphore(1)]: the first holds the slot, the second
    waits. *)
Lemma run_with_resource_management_bound_witness :
  let st := Sem.acquire 1 (Sem.acquire 0 (Sem.initial 1)) in
  Sem.reachable 2 1 st /\
  Sem.running_count 2 st <= 1 /\
  (forall i j ws, i < 2 -> Sem.phases st i = Sem.Running -> Sem.waiters st = j :: ws ->
     Sem.step 2 st (Sem.release i st) /\
     Sem.phases (Sem.release i st) j = Sem.Running /\ Sem.waiters (Sem.release i st) = ws).
Proof.
  intros st.
  assert (Hr : Sem.reachable 2 1 st).
  { apply (Sem.reach_step _ _ (Sem.acquire 0 (Sem.initial 1)));
      [apply (Sem.reach_step _ _ (Sem.initial 1)); [apply Sem.reach_init|]|];
      apply Sem.step_start; (lia || reflexivity). }
  split; [exact Hr | exact (run_with_resource_management_bound 2 1 st Hr)].
Defined.

(** The two-task cycle [{A: [B], B: [A]}] with units that succeed: the run
    raises the cycle error for [A]. *)
Lemma run_with_dependency_graph_cycle_witness :
  let tasks := [("A"%string, {| wname := "A"; wdur := 0; wres := Ret VNone |});
                ("B"%string, {| wname := "B"; wdur := 0; wres := Ret VNone |})] in
  let deps := [("A"%string, ["B"%string]); ("B"%string, ["A"%string])] in
  ((exists e tr, DepGraph.run_with_dependency_graph tasks deps = (Raise e, tr)) /\
   ((forall n d, DepGraph.edge deps n d -> In d (map fst tasks)) ->
    (forall n w, In (n, w) tasks -> is_ret (run_task w) = true) ->
    exists x tr,
      DepGraph.run_with_dependency_graph tasks deps
        = (Raise (ValueError (DepGraph.cycle_msg x)), tr) /\
      DepGraph.reach deps x x /\ In x (map fst tasks))) /\
  fst (DepGraph.run_with_dependency_graph tasks deps)
    = Raise (ValueError (DepGraph.cycle_msg "A")).
Proof.
  intros tasks deps. split; [|vm_compute; reflexivity].
  apply run_with_dependency_graph_cycle.
  exists "A"%string, "A"%string. split; [left; reflexivity|]. split; [now left|].
  apply DepGraph.reach_step with "B"%string; [vm_compute; now left|].
  apply DepGraph.reach_one. vm_compute. now left.
Defined.

(** [{A: noop, B: noop}] with [{A: [B]}]: [B] is stored, and its unit
    invoked, before [A]. *)
Lemma run_with_dependency_graph_acyclic_witness :
  let tasks := [("A"%string, {| wname := "A"; wdur := 0; wres := Ret VNone |});
                ("B"%string, {| wname := "B"; wdur := 0; wres := Ret VNone |})] in
  let deps := [("A"%string, ["B"%string])] in
  (exists R tr, DepGraph.run_with_dependency_graph tasks deps = (Ret R, tr) /\
    (forall n, In n (map fst R) <-> In n (map fst tasks)) /\
    NoDup (map fst R) /\
    DepGraph.invoked tr = map fst R /\
    (forall n v, In (n, v) R -> exists w, DepGraph.lookup n tasks = Some w /\ run_task w = Ret v) /\
    (forall i n v d, nth_error R i = Some (n, v) -> DepGraph.edge deps n d ->
       In d (map fst (firstn i R))) /\
    (forall n, In n (map fst tasks) ->
       exists pre segs post,
         tr = pre ++ DepGraph.Enter n :: concat segs ++ DepGraph.Invoke n :: post /\
         Forall2 (fun d seg => exists seg', seg = DepGraph.Enter d :: seg')
           (DepGraph.deps_get deps n) segs)) /\
  DepGraph.run_with_dependency_graph tasks deps =
    (Ret [("B"%string, VNone); ("A"%string, VNone)],
     [DepGraph.Enter "A"; DepGraph.Enter "B"; DepGraph.Invoke "B"; DepGraph.Invoke "A";
      DepGraph.Enter "B"]).
Proof.
  intros tasks deps. split; [|vm_compute; reflexivity].
  apply run_with_dependency_graph_acyclic.
  - intros n Hr. inversion Hr as [x y He | x m y He Hm]; subst;
      unfold DepGraph.edge, DepGraph.deps_get in He; cbn in He;
      destruct (String.eqb_spec n "A") as [->|]; cbn in He;
      try destruct He as [He|[]]; try discriminate; try contradiction.
    subst m. inversion Hm as [x y He' | x m y He' _]; subst;
      vm_compute in He'; contradiction.
  - intros n d He. unfold DepGraph.edge, DepGraph.deps_get in He. cbn in He.
    destruct (String.eqb_spec n "A"); cbn in He; [|contradiction].
    destruct He as [<-|[]]. right. left. reflexivity.
  - intros n w [H|[H|[]]]; injection H as _ <-; reflexivity.
Defined.

(** [[{X, priority 1}, {Y, priority 5}]]: [Y] runs before [X]. *)
Lemma run_with_priority_example :
  let x := {| wname := "X"; wdur := 0; wres := Ret (VStr "x") |} in
  let y := {| wname := "Y"; wdur := 0; wres := Ret (VStr "y") |} in
  run_with_priority [{| d_task := x; priority := 1 |}; {| d_task := y; priority := 5 |}] =
    ([{| d_task := y; priority := 5 |}; {| d_task := x; priority := 1 |}],
     Ret [VStr "y"; VStr "x"]).
Proof. vm_compute. reflexivity. Qed.

(** * Further properties of [AsyncOperations] *)

(** ** [run_with_progress] and [update_progress_bar] *)

Lemma progress_loop_all_ok (total : nat) :
  forall tasks c acc vs, map run_task tasks = map Ret vs ->
  progress_loop tasks total c acc =
    (flat_map (fun p => [PInvoke (fst p); PBar (snd p) total])
              (combine tasks (seq (S c) (length tasks))) ++ [PNewline],
     Ret (acc ++ vs)).
Proof.
  induction tasks as [|w r IH]; intros c acc vs H.
  - destruct vs; [|discriminate]. cbn. now rewrite app_nil_r.
  - destruct vs as [|v vs]; [discriminate|]. injection H as Hw Hr.
    cbn [progress_loop]. unfold run_task in *. rewrite Hw.
    rewrite (IH (S c) (acc ++ [v]) vs Hr). rewrite <- app_assoc. reflexivity.
Qed.

Lemma progress_loop_fail (total : nat) (w : work) (e : error) (post : list work) :
  run_task w = Raise e ->
  forall pre c acc vs, map run_task pre = map Ret vs ->
  progress_loop (pre ++ w :: post) total c acc =
    (flat_map (fun p => [PInvoke (fst p); PBar (snd p) total])
              (combine pre (seq (S c) (length pre))) ++ [PInvoke w],
     Raise e).
Proof.
  intros Hw. induction pre as [|x r IH]; intros c acc vs H.
  - cbn. unfold run_task in *. now rewrite Hw.
  - destruct vs as [|v vs]; [discriminate|]. injection H as Hx Hr.
    cbn [app progress_loop]. unfold run_task in *. rewrite Hx.
    rewrite (IH (S c) (acc ++ [v]) vs Hr). reflexivity.
Qed.

Lemma length_concat_repeat (l : pystr) (n : nat) :
  length (concat (repeat l n)) = n * length l.
Proof. induction n as [|n IH]; cbn; [reflexivity|]. rewrite length_app, IH. lia. Qed.

Lemma update_progress_bar_spec (c t : Z) :
  (0 <= c <= t)%Z -> (0 < t)%Z ->
  exists fl bar, update_progress_bar c t = Some (fl, bar) /\
    fl = (50 * c / t)%Z /\ (0 <= fl <= 50)%Z /\
    length bar = Z.to_nat (50 + 2 * fl) /\ (fl = 50%Z <-> c = t).
Proof.
  intros Hc Ht. unfold update_progress_bar.
  replace (Z.eqb t 0) with false by (symmetry; apply Z.eqb_neq; lia).
  eexists _, _. split; [reflexivity|]. split; [reflexivity|].
  assert (Hlo : (0 <= 50 * c / t)%Z) by (apply Z.div_pos; lia).
  assert (Hhi : (50 * c / t <= 50)%Z).
  { apply Z.div_le_upper_bound; lia. }
  split; [lia|]. split.
  - rewrite length_app, !length_concat_repeat. cbn [length fill_char dash_char]. lia.
  - split.
    + intros Hf. destruct (Z.eq_dec c t) as [|Hne]; [assumption|].
      assert (Hlt : (50 * c / t < 50)%Z) by (apply Z.div_lt_upper_bound; lia). lia.
    + intros ->. rewrite Z.div_mul by lia. reflexivity.
Qed.

(** ** [run_with_retry] *)

Lemma retry_loop_success (u : nat -> res value) (M : Z) (d : Q) (k : nat) (v : value) :
  k < Z.to_nat M -> (forall j, j < k -> is_ret (u j) = false) -> u k = Ret v ->
  forall m j, j <= k < j + m ->
  retry_loop u M d (seq j m) =
    (flat_map (fun a => [Attempt a; Sleep d]) (seq j (k - j)) ++ [Attempt k], Ret v).
Proof.
  intros Hk Hfail Hv m. induction m as [|m IH]; intros j Hj; [lia|].
  cbn [seq retry_loop].
  destruct (Nat.eq_dec j k) as [->|Hne].
  - rewrite Hv. replace (k - k) with 0 by lia. reflexivity.
  - specialize (Hfail j ltac:(lia)). destruct (u j) as [v'|e]; [discriminate|].
    replace (Z.of_nat j =? M - 1)%Z with false by (symmetry; apply Z.eqb_neq; lia).
    rewrite (IH (S j)) by lia.
    replace (k - j) with (S (k - S j)) by lia. reflexivity.
Qed.

(** ** [run_in_parallel] *)

Lemma first_fail_none_ok (outs : list (res value)) (p : list nat) :
  (forall i, In i p -> exists v, nth_error outs i = Some (Ret v)) ->
  Gather.first_fail outs p = None.
Proof.
  induction p as [|i p IH]; intros H; [reflexivity|]. cbn.
  destruct (H i (or_introl eq_refl)) as [v ->]. apply IH. intros j Hj. apply H. now right.
Qed.

(** ** [run_with_priority] *)

Lemma run_sequential_fail (ds : list descriptor) (e : error) :
  snd (run_sequential ds) = Raise e ->
  exists pre d post, ds = pre ++ d :: post /\ fst (run_sequential ds) = pre ++ [d] /\
    Forall (fun d' => is_ret (run_task (d_task d')) = true) pre /\
    run_task (d_task d) = Raise e.
Proof.
  induction ds as [|d r IH]; cbn [run_sequential]; [discriminate|].
  destruct (run_task (d_task d)) as [v|e'] eqn:Ed.
  - destruct (run_sequential r) as [tr rr] eqn:Er. cbn [fst snd].
    intros H. destruct rr as [vs|e'']; [discriminate|]. injection H as ->.
    destruct (IH eq_refl) as (pre & d' & post & -> & Htr & Hf & Hd').
    exists (d :: pre), d', post. cbn [fst] in Htr. rewrite Htr.
    split; [reflexivity|]. split; [reflexivity|]. split; [|exact Hd'].
    constructor; [now rewrite Ed | exact Hf].
  - cbn [fst snd]. intros H. injection H as ->.
    exists [], d, r. split; [reflexivity|]. split; [reflexivity|].
    split; [constructor | exact Ed].
Qed.

(** ** [run_with_rate_limit] *)

Lemma firstn_skipn_within {T : Type} (l : list T) (a B c : nat) :
  a + B <= c -> firstn B (skipn a (firstn c l)) = firstn B (skipn a l).
Proof.
  intros H. rewrite skipn_firstn_comm, firstn_firstn.
  replace (Nat.min B (c - a)) with B by lia. reflexivity.
Qed.

Lemma in_chunk_start {T : Type} (l : list T) (a B : nat) (x : T) :
  In x (firstn B (skipn a l)) -> a < length l.
Proof.
  intros H. destruct (Nat.lt_ge_cases a (length l)) as [|Hge]; [assumption|].
  rewrite skipn_all2 in H by exact Hge. rewrite firstn_nil in H. destruct H.
Qed.

Lemma rl_loop_fail (tasks : list work) (B : nat) (P : Q) (sch : nat -> list nat)
    (k0 : nat) (vs0 : list value) (e0 : error) :
  1 <= B ->
  map run_task (firstn (k0 * B) tasks) = map Ret vs0 ->
  (forall i, Permutation (sch i) (seq 0 (length (firstn B (skipn i tasks))))) ->
  k0 * B < length tasks ->
  run_in_parallel (firstn B (skipn (k0 * B) tasks)) (sch (k0 * B)) = Some (Raise e0) ->
  forall m j acc, j <= k0 < j + m ->
  rl_loop tasks B P sch (map (fun k => k * B) (seq j m)) acc =
    (flat_map (fun k => [RunBatch (firstn B (skipn (k * B) tasks)); Pause P]) (seq j (k0 - j))
       ++ [RunBatch (firstn B (skipn (k0 * B) tasks))],
     Some (Raise e0)).
Proof.
  intros HB Hpre Hsch Hlen Hk0 m. induction m as [|m IH]; intros j acc Hj; [lia|].
  cbn [seq map rl_loop].
  destruct (Nat.eq_dec j k0) as [->|Hne].
  - rewrite Hk0. replace (k0 - k0) with 0 by lia. reflexivity.
  - assert (Hjk : j * B + B <= k0 * B) by nia.
    rewrite (run_in_parallel_all_ok _ _ (firstn B (skipn (j * B) vs0))).
    2:{ rewrite <- (firstn_skipn_within tasks (j * B) B (k0 * B)) by exact Hjk.
        rewrite <- !firstn_map, <- !skipn_map, Hpre. reflexivity. }
    2:{ apply Hsch. }
    rewrite (IH (S j)) by lia.
    replace (Nat.ltb (j * B + B) (length tasks)) with true by (symmetry; apply Nat.ltb_lt; lia).
    replace (k0 - j) with (S (k0 - S j)) by lia. reflexivity.
Qed.

(** ** [run_with_dependency_graph] *)

Module DepGraphMore.
Import DepGraph DepGraphFacts.

Section Raise.
Variable tasks : list (string * work).
Variable deps : list (string * list string).

(** When every unit succeeds, an exception of [resolve] is either the cycle
    error of a name reaching itself or the [KeyError] of a name that is no
    task. *)
Definition raise_kind (e : error) : Prop :=
  (exists x, e = ValueError (cycle_msg x) /\ reach deps x x) \/
  (exists x, e = KeyError x /\ ~ In x (map fst tasks)).

Lemma resolve_raise_any
    (Hok : forall n w, In (n, w) tasks -> is_ret (run_task w) = true) (f : nat) :
  forall n st e st', (forall p, In p (in_progress st) -> reach deps p n) ->
  resolve tasks deps f n st = Some (Raise e, st') -> raise_kind e.
Proof.
  induction f as [|f IH]; intros n st e st' Hip H; [discriminate|].
  cbn [resolve log results in_progress trace] in H.
  destruct (lookup n (results st)) as [v0|]; [discriminate|].
  destruct (existsb (String.eqb n) (in_progress st)) eqn:Eip.
  - injection H as <- _. left. exists n. split; [reflexivity|].
    apply Hip. now apply existsb_eqb_In.
  - destruct (run_each (resolve tasks deps f) (deps_get deps n) _) as [[[u|e'] s]|] eqn:Edeps;
      [| |discriminate].
    + destruct (lookup n tasks) as [w|] eqn:Ew.
      * pose proof (Hok n w (lookup_In _ _ _ Ew)) as Hw.
        destruct (run_task w) as [v|e'']; [discriminate | cbn in Hw; discriminate].
      * injection H as <- _. right. exists n. split; [reflexivity|].
        now apply lookup_None.
    + injection H as <- _. revert Edeps.
      apply (run_each_raise _ (n :: in_progress st) raise_kind
               (fun d s v s' Hr => proj1 (resolve_ret tasks deps f d s v s' Hr))); [|reflexivity].
      intros d s1 e0 s0 Hd Hs Hr. apply (IH d s1 e0 s0); [|exact Hr].
      rewrite Hs. intros p [<-|Hp]; [now apply reach_one|].
      eapply reach_edge_r; [apply Hip, Hp | exact Hd].
Qed.

Lemma run_top_raise_any
    (Hok : forall n w, In (n, w) tasks -> is_ret (run_task w) = true) (e : error) (s : gstate) :
  run_each (resolve tasks deps (S (length (universe tasks deps)))) (map fst tasks) init
    = Some (Raise e, s) -> raise_kind e.
Proof.
  intros H.
  apply (run_each_raise _ [] raise_kind
           (fun d s0 v s' Hr => proj1 (resolve_ret tasks deps (S (length (universe tasks deps)))
                                         d s0 v s' Hr))
           (map fst tasks) init e s); [|reflexivity | exact H].
  intros d s0 e0 s1 _ Hs Hr.
  apply (resolve_raise_any Hok (S (length (universe tasks deps))) d s0 e0 s1);
    [rewrite Hs; intros p [] | exact Hr].
Qed.

End Raise.

(** With distinct task names, [lookup] finds every listed pair. *)
Lemma lookup_nodup {A : Type} (l : list (string * A)) (k : string) (a : A) :
  NoDup (map fst l) -> In (k, a) l -> lookup k l = Some a.
Proof.
  induction l as [|[k' a'] r IH]; intros Hnd Hin; [destruct Hin|].
  inversion Hnd as [|? ? Hk' Hnd']; subst. cbn.
  destruct Hin as [Heq|Hin].
  - injection Heq as <- <-. now rewrite String.eqb_refl.
  - destruct (String.eqb_spec k k') as [->|]; [|exact (IH Hnd' Hin)].
    exfalso. apply Hk'. apply in_map_iff. now exists (k', a).
Qed.

End DepGraphMore.

(** ** [run_with_resource_management] *)

Module SemMore.
Import Sem SemFacts.

(** Invariant of the reachable semaphore states: the slots in use plus the
    free counter make up [max_concurrent]; the queue holds distinct tasks,
    exactly the waiting ones; and a task only waits when no slot is free. *)
Definition inv (n k : nat) (st : sstate) : Prop :=
  running_count n st + counter st = k /\
  NoDup (waiters st) /\
  (forall j, In j (waiters st) -> j < n /\ phases st j = Waiting) /\
  (forall i, i < n -> phases st i = Waiting -> In i (waiters st)) /\
  (waiters st <> [] -> counter st = 0).

Lemma upd_eq (f : nat -> phase) (i : nat) (p : phase) : upd f i p i = p.
Proof. unfold upd. now rewrite Nat.eqb_refl. Qed.

Lemma upd_neq (f : nat -> phase) (i j : nat) (p : phase) : j <> i -> upd f i p j = f j.
Proof. intros H. unfold upd. destruct (Nat.eqb_spec j i); [contradiction | reflexivity]. Qed.

Lemma inv_initial (n k : nat) : inv n k (initial k).
Proof.
  unfold inv, running_count, initial. cbn [counter waiters phases].
  rewrite (filter_ext_in _ (fun _ => false)) by reflexivity.
  split; [clear; induction (seq 0 n) as [|x r IH]; cbn; lia|].
  split; [constructor|]. split; [intros j []|]. split; [intros i _ H; discriminate|].
  intros H; contradiction.
Qed.

Lemma inv_step (n k : nat) (st st' : sstate) :
  inv n k st -> step n st st' -> inv n k st'.
Proof.
  intros (Hc & Hnd & Hw1 & Hw2 & Hfree) Hs. unfold inv.
  unfold running_count in *. fold (cnt (seq 0 n) (phases st)) in Hc.
  destruct Hs as [i st Hi Hcr | i st Hi Hr].
  - assert (Hin : In i (seq 0 n)) by (apply in_seq; lia).
    assert (Hnw : ~ In i (waiters st)).
    { intros H. destruct (Hw1 i H) as [_ Hp]. congruence. }
    unfold acquire.
    destruct (counter st) as [|c] eqn:Ec, (waiters st) as [|w ws] eqn:Ew;
      cbn [phases counter waiters].
    + (* no free slot, empty queue: wait *)
      pose proof (cnt_upd_in (seq 0 n) (phases st) i Waiting (seq_NoDup n 0) Hin) as U.
      unfold b in U. rewrite Hcr in U. cbn in U.
      unfold running_count. fold (cnt (seq 0 n) (upd (phases st) i Waiting)).
      split; [lia|]. split; [repeat constructor; intros []|].
      split; [intros j [<-|[]]; split; [lia | apply upd_eq]|].
      split; [|intros _; reflexivity].
      intros i' Hi' Hp. destruct (Nat.eq_dec i' i) as [->|Hne]; [now left|].
      rewrite upd_neq in Hp by exact Hne. destruct (Hw2 i' Hi' Hp).
    + (* no free slot: queue behind the others *)
      pose proof (cnt_upd_in (seq 0 n) (phases st) i Waiting (seq_NoDup n 0) Hin) as U.
      unfold b in U. rewrite Hcr in U. cbn in U.
      unfold running_count. fold (cnt (seq 0 n) (upd (phases st) i Waiting)).
      split; [lia|]. split.
      { apply NoDup_app; [exact Hnd | repeat constructor; intros [] |].
        intros a Ha [<-|[]]. contradiction. }
      split.
      { intros j Hj. apply in_app_or in Hj as [Hj|[<-|[]]].
        - destruct (Hw1 j Hj) as [Hjn Hjp]. split; [exact Hjn|].
          destruct (Nat.eq_dec j i) as [->|Hne]; [apply upd_eq | now rewrite upd_neq].
        - split; [lia | apply upd_eq]. }
      split; [|intros _; reflexivity].
      intros i' Hi' Hp. destruct (Nat.eq_dec i' i) as [->|Hne];
        [apply in_or_app; right; now left|].
      rewrite upd_neq in Hp by exact Hne. apply in_or_app. left. exact (Hw2 i' Hi' Hp).
    + (* a free slot and nobody queued: enter *)
      pose proof (cnt_upd_in (seq 0 n) (phases st) i Running (seq_NoDup n 0) Hin) as U.
      unfold b in U. rewrite Hcr in U. cbn in U.
      unfold running_count. fold (cnt (seq 0 n) (upd (phases st) i Running)).
      split; [lia|]. split; [constructor|]. split; [intros j []|].
      split; [|intros H; contradiction].
      intros i' Hi' Hp. destruct (Nat.eq_dec i' i) as [->|Hne].
      * rewrite upd_eq in Hp. discriminate.
      * rewrite upd_neq in Hp by exact Hne. exact (Hw2 i' Hi' Hp).
    + (* a free slot but a queue: cannot happen *)
      exfalso. specialize (Hfree ltac:(discriminate)). discriminate.
  - assert (Hin : In i (seq 0 n)) by (apply in_seq; lia).
    pose proof (cnt_upd_in (seq 0 n) (phases st) i Finished (seq_NoDup n 0) Hin) as U1.
    unfold b in U1. rewrite Hr in U1. cbn in U1.
    unfold release. destruct (waiters st) as [|j ws] eqn:Ew; cbn [phases counter waiters].
    + unfold running_count. fold (cnt (seq 0 n) (upd (phases st) i Finished)).
      split; [lia|]. split; [constructor|]. split; [intros j []|].
      split; [|intros H; contradiction].
      intros i' Hi' Hp. destruct (Nat.eq_dec i' i) as [->|Hne].
      * rewrite upd_eq in Hp. discriminate.
      * rewrite upd_neq in Hp by exact Hne. exact (Hw2 i' Hi' Hp).
    + destruct (Hw1 j (or_introl eq_refl)) as [Hjn Hjp].
      assert (Hji : j <> i) by congruence.
      assert (Hjin : In j (seq 0 n)) by (apply in_seq; lia).
      pose proof (cnt_upd_in (seq 0 n) (upd (phases st) i Finished) j Running
                    (seq_NoDup n 0) Hjin) as U2.
      unfold b in U2. rewrite upd_neq in U2 by exact Hji. rewrite Hjp in U2. cbn in U2.
      inversion Hnd as [|? ? Hjws Hnd']; subst.
      unfold running_count. fold (cnt (seq 0 n) (upd (upd (phases st) i Finished) j Running)).
      split; [lia|]. split; [exact Hnd'|].
      split.
      { intros x Hx. destruct (Hw1 x (or_intror Hx)) as [Hxn Hxp].
        assert (Hxj : x <> j) by (intros ->; contradiction).
        assert (Hxi : x <> i) by congruence.
        split; [exact Hxn|]. rewrite upd_neq, upd_neq by assumption. exact Hxp. }
      split.
      { intros i' Hi' Hp. destruct (Nat.eq_dec i' j) as [->|Hne1].
        - rewrite upd_eq in Hp. discriminate.
        - rewrite upd_neq in Hp by exact Hne1.
          destruct (Nat.eq_dec i' i) as [->|Hne2]; [rewrite upd_eq in Hp; discriminate|].
          rewrite upd_neq in Hp by exact Hne2.
          destruct (Hw2 i' Hi' Hp) as [<-|H]; [contradiction | exact H]. }
      intros _. apply Hfree. discriminate.
Qed.

Lemma reachable_inv (n k : nat) (st : sstate) : reachable n k st -> inv n k st.
Proof.
  induction 1 as [|st st' _ IH Hs]; [apply inv_initial | eapply inv_step; eassumption].
Qed.

(** Progress of a task through its phases. *)
Definition rank (p : phase) : nat :=
  match p with Created => 0 | Waiting => 1 | Running => 2 | Finished => 3 end.

Definition potential (n : nat) (st : sstate) : nat :=
  fold_right (fun i acc => rank (phases st i) + acc) 0 (seq 0 n).

Lemma wsum_upd_in (l : list nat) (f : nat -> phase) (i : nat) (p : phase) :
  NoDup l -> In i l ->
  fold_right (fun j acc => rank (upd f i p j) + acc) 0 l + rank (f i) =
  fold_right (fun j acc => rank (f j) + acc) 0 l + rank p.
Proof.
  induction l as [|j r IH]; intros Hnd Hi; [destruct Hi|].
  inversion Hnd as [|? ? Hj Hnd']; subst. cbn [fold_right].
  destruct (Nat.eq_dec j i) as [->|Hne].
  - rewrite upd_eq.
    assert (E : fold_right (fun j acc => rank (upd f i p j) + acc) 0 r =
                fold_right (fun j acc => rank (f j) + acc) 0 r).
    { clear IH Hnd Hnd' Hi. induction r as [|x r' IHr]; [reflexivity|]. cbn [fold_right].
      rewrite upd_neq by (intros ->; apply Hj; now left).
      rewrite IHr; [reflexivity|]. intros H; apply Hj; now right. }
    rewrite E. lia.
  - destruct Hi as [Hi|Hi]; [congruence|]. rewrite upd_neq by exact Hne.
    specialize (IH Hnd' Hi). lia.
Qed.

Lemma potential_le (n : nat) (st : sstate) : potential n st <= 3 * n.
Proof.
  unfold potential. rewrite <- (length_seq n 0) at 2.
  induction (seq 0 n) as [|x r IH]; cbn [fold_right length]; [lia|].
  destruct (phases st x); cbn [rank]; lia.
Qed.

Lemma all_finished_or_not (l : list nat) (f : nat -> phase) :
  (forall i, In i l -> f i = Finished) \/ exists i, In i l /\ f i <> Finished.
Proof.
  induction l as [|x r [IH|(i & Hi & Hne)]].
  - left. intros i [].
  - destruct (f x) eqn:E;
      try (right; exists x; split; [now left | rewrite E; discriminate]).
    left. intros i [<-|Hi]; [exact E | now apply IH].
  - right. exists i. split; [now right | exact Hne].
Qed.

End SemMore.

(** Some unit fails: the gather raises the exception of a failing unit. *)
Lemma gather_some_failure (tasks : list work) (sched : list nat) :
  Permutation sched (seq 0 (length tasks)) ->
  (exists w e, In w tasks /\ run_task w = Raise e) ->
  exists e, run_in_parallel tasks sched = Some (Raise e) /\
            exists w, In w tasks /\ run_task w = Raise e.
Proof.
  intros Hperm (w & e & Hw & He).
  destruct (In_nth_error _ _ Hw) as [i Hi].
  assert (Hi' : nth_error (map run_task tasks) i = Some (Raise e))
    by (rewrite nth_error_map, Hi; cbn; congruence).
  assert (Hin : In i sched).
  { apply Permutation_sym in Hperm. eapply Permutation_in; [exact Hperm|].
    apply in_seq. split; [lia|]. apply nth_error_Some. congruence. }
  destruct (GatherFacts.first_fail_found _ _ _ _ Hin Hi') as [e' He'].
  exists e'. split.
  - unfold run_in_parallel.
    assert (Hne : map run_task tasks <> []) by (destruct tasks; [contradiction | discriminate]).
    rewrite GatherFacts.gather_nonempty by exact Hne.
    assert (Hlen : length sched <= length (map run_task tasks)).
    { rewrite length_map. apply Permutation_length in Hperm.
      rewrite length_seq in Hperm. lia. }
    destruct (GatherFacts.fold_on_done _ sched Hne Hlen) as [_ Ho].
    rewrite Ho. unfold GatherFacts.expected. rewrite He'. reflexivity.
  - apply GatherFacts.first_fail_source in He'.
    apply in_map_iff in He' as (w' & Hw'1 & Hw'2). eauto.
Qed.

(** ** Extra properties *)

(** [run_with_progress], all units succeeding: each unit is called in list
    order, each call followed by [update_progress_bar(k, n)] for
    [k = 1 .. n] (so the bar is never asked to divide by zero), then a newline
    is printed and the results are returned in order. *)
Theorem run_with_progress_all_ok (tasks : list work) (vs : list value) :
  map run_task tasks = map Ret vs ->
  run_with_progress tasks =
    (flat_map (fun p => [PInvoke (fst p); PBar (snd p) (length tasks)])
              (combine tasks (seq 1 (length tasks))) ++ [PNewline],
     Ret vs) /\
  (forall c t, In (PBar c t) (fst (run_with_progress tasks)) ->
     1 <= c <= t /\ update_progress_bar (Z.of_nat c) (Z.of_nat t) <> None).
Proof.
  intros H. unfold run_with_progress.
  rewrite (progress_loop_all_ok (length tasks) tasks 0 [] vs H). split; [reflexivity|].
  cbn [fst]. intros c t Hin. apply in_app_or in Hin as [Hin|[Hin|[]]]; [|discriminate].
  apply in_flat_map in Hin as ([w k] & Hp & Hin). cbn [fst snd] in Hin.
  destruct Hin as [Hin|[Hin|[]]]; [discriminate|]. injection Hin as <- <-.
  apply in_combine_r, in_seq in Hp.
  split; [lia|]. unfold update_progress_bar.
  replace (Z.eqb (Z.of_nat (length tasks)) 0) with false by (symmetry; apply Z.eqb_neq; lia).
  discriminate.
Qed.

(** [run_with_progress], a failing unit: the units before it are called and
    reported, the failing one is called, its exception propagates; no unit
    after it is called, no newline is printed and no results are returned. *)
Theorem run_with_progress_failure (pre post : list work) (w : work) (vs : list value)
    (e : error) :
  map run_task pre = map Ret vs -> run_task w = Raise e ->
  run_with_progress (pre ++ w :: post) =
    (flat_map (fun p => [PInvoke (fst p); PBar (snd p) (length (pre ++ w :: post))])
              (combine pre (seq 1 (length pre))) ++ [PInvoke w],
     Raise e).
Proof.
  intros Hpre Hw. unfold run_with_progress.
  exact (progress_loop_fail _ w e post Hw pre 0 [] vs Hpre).
Qed.

(** [update_progress_bar(c, t)] for [0 <= c <= t], [t > 0]: the filled length
    is [50 * c // t], between 0 and 50, and reaches 50 exactly when [c = t];
    the bar string has [50 + 2 * filled] code points (each fill character of
    the source is three code points), so it grows from 50 to 150. *)
Theorem update_progress_bar_width (c t : Z) :
  (0 <= c <= t)%Z -> (0 < t)%Z ->
  exists fl bar, update_progress_bar c t = Some (fl, bar) /\
    fl = (50 * c / t)%Z /\ (0 <= fl <= 50)%Z /\
    length bar = Z.to_nat (50 + 2 * fl) /\ (fl = 50%Z <-> c = t).
Proof. exact (update_progress_bar_spec c t). Qed.

(** [run_with_retry] with [max_retries <= 0]: the loop body never runs, the
    unit is never called, and [None] is returned. *)
Theorem run_with_retry_nonpositive (u : nat -> res value) (N : Z) (d : Q) :
  (N <= 0)%Z -> run_with_retry u N d = ([], Ret VNone).
Proof.
  intros H. unfold run_with_retry. replace (Z.to_nat N) with 0 by lia. reflexivity.
Qed.

(** [run_with_retry] when the call [k < max_retries] is the first to succeed:
    calls [0 .. k] are made with one sleep after each failing call, and the
    value of call [k] is returned. *)
Theorem run_with_retry_eventual_success (u : nat -> res value) (N : Z) (d : Q)
    (k : nat) (v : value) :
  k < Z.to_nat N -> (forall j, j < k -> is_ret (u j) = false) -> u k = Ret v ->
  run_with_retry u N d =
    (flat_map (fun a => [Attempt a; Sleep d]) (seq 0 k) ++ [Attempt k], Ret v).
Proof.
  intros Hk Hfail Hv. unfold run_with_retry.
  rewrite (retry_loop_success u N d k v Hk Hfail Hv (Z.to_nat N) 0) by lia.
  now rewrite Nat.sub_0_r.
Qed.

(** [run_with_timeout] with a unit finishing before the deadline: its value
    is returned and its exception propagates, except a [TimeoutError] the
    unit raises itself, which is swallowed into [None]. *)
Theorem run_with_timeout_in_time (w : work) (t : Q) :
  (wdur w < t)%Q ->
  (forall v, run_task w = Ret v -> run_with_timeout w t = Ret v) /\
  (forall e, run_task w = Raise e -> e <> TimeoutError -> run_with_timeout w t = Raise e) /\
  (run_task w = Raise TimeoutError -> run_with_timeout w t = Ret VNone).
Proof.
  intros H. unfold run_with_timeout. rewrite wait_for_early by exact H.
  split; [intros v ->; reflexivity|]. split.
  - intros e -> Hne. destruct e; try reflexivity. contradiction.
  - intros ->. reflexivity.
Qed.

(** [run_with_rate_limit] with [rate_limit = B >= 1], when the units before
    batch [k0] succeed and batch [k0] holds a failing unit: batches
    [0 .. k0] run, each but the last followed by the pause, the exception of
    a failing unit of batch [k0] propagates, and no later batch runs. *)
Theorem run_with_rate_limit_stops_at_failure (tasks : list work) (B : nat) (P : Q)
    (sch : nat -> list nat) (k0 : nat) (vs0 : list value) :
  1 <= B ->
  map run_task (firstn (k0 * B) tasks) = map Ret vs0 ->
  (exists w e, In w (firstn B (skipn (k0 * B) tasks)) /\ run_task w = Raise e) ->
  (forall i, Permutation (sch i) (seq 0 (length (firstn B (skipn i tasks))))) ->
  fst (run_with_rate_limit tasks B P sch) =
    flat_map (fun k => [RunBatch (firstn B (skipn (k * B) tasks)); Pause P]) (seq 0 k0)
      ++ [RunBatch (firstn B (skipn (k0 * B) tasks))] /\
  exists e, snd (run_with_rate_limit tasks B P sch) = Some (Raise e) /\
    exists w, In w (firstn B (skipn (k0 * B) tasks)) /\ run_task w = Raise e.
Proof.
  intros HB Hpre Hfail Hsch.
  assert (Hlen : k0 * B < length tasks).
  { destruct Hfail as (w & e & Hw & _). exact (in_chunk_start _ _ _ _ Hw). }
  destruct (gather_some_failure _ (sch (k0 * B)) (Hsch _) Hfail) as (e0 & Hk0 & Hsrc).
  unfold run_with_rate_limit.
  replace (Nat.eqb B 0) with false by (symmetry; apply Nat.eqb_neq; lia).
  unfold py_range_step.
  assert (HL : k0 < (length tasks + B - 1) / B).
  { destruct (ceil_div_bounds (length tasks) B HB) as [[H1 _]|[H1 _]]; nia. }
  rewrite (rl_loop_fail tasks B P sch k0 vs0 e0 HB Hpre Hsch Hlen Hk0) by lia.
  cbn [fst snd]. rewrite Nat.sub_0_r. split; [reflexivity|]. eauto.
Qed.

(** [run_in_parallel]: when the units complete in the order [pre ++ [i] ++ post],
    those of [pre] succeed and unit [i] fails, the exception raised is unit
    [i]'s: the first failure in completion order, not in submission order. *)
Theorem run_in_parallel_first_failure (tasks : list work) (pre post : list nat) (i : nat)
    (w : work) (e : error) :
  Permutation (pre ++ i :: post) (seq 0 (length tasks)) ->
  (forall j, In j pre -> exists w', nth_error tasks j = Some w' /\ is_ret (run_task w') = true) ->
  nth_error tasks i = Some w -> run_task w = Raise e ->
  run_in_parallel tasks (pre ++ i :: post) = Some (Raise e).
Proof.
  intros Hperm Hpre Hi He. unfold run_in_parallel.
  assert (Hne : map run_task tasks <> []) by (destruct tasks; [destruct i; discriminate | discriminate]).
  rewrite GatherFacts.gather_nonempty by exact Hne.
  assert (Hlen : length (pre ++ i :: post) <= length (map run_task tasks)).
  { rewrite length_map. apply Permutation_length in Hperm. rewrite length_seq in Hperm. lia. }
  destruct (GatherFacts.fold_on_done _ _ Hne Hlen) as [_ ->].
  unfold GatherFacts.expected. rewrite GatherFacts.first_fail_app.
  rewrite first_fail_none_ok.
  - cbn [Gather.first_fail]. rewrite nth_error_map, Hi. cbn. rewrite He. reflexivity.
  - intros j Hj. destruct (Hpre j Hj) as (w' & Ew & Hok). rewrite nth_error_map, Ew. cbn.
    destruct (run_task w') as [v|e']; [eauto | discriminate].
Qed.

(** [run_in_parallel]: as long as some unit has not completed and none of
    the completed ones failed, the gather is not resolved: the call does not
    return. *)
Theorem run_in_parallel_pending (tasks : list work) (p : list nat) :
  length p < length tasks ->
  (forall j, In j p -> exists w, nth_error tasks j = Some w /\ is_ret (run_task w) = true) ->
  run_in_parallel tasks p = None.
Proof.
  intros Hlen Hp. unfold run_in_parallel.
  assert (Hne : map run_task tasks <> []) by (destruct tasks; [cbn in Hlen; lia | discriminate]).
  rewrite GatherFacts.gather_nonempty by exact Hne.
  destruct (GatherFacts.fold_on_done _ p Hne ltac:(rewrite length_map; lia)) as [_ ->].
  unfold GatherFacts.expected. rewrite first_fail_none_ok.
  - rewrite length_map. replace (Nat.eqb (length p) (length tasks)) with false
      by (symmetry; apply Nat.eqb_neq; lia). reflexivity.
  - intros j Hj. destruct (Hp j Hj) as (w & Ew & Hok). rewrite nth_error_map, Ew. cbn.
    destruct (run_task w) as [v|e']; [eauto | discriminate].
Qed.

(** [run_with_priority] raising [e]: in the priority order, the units before
    some descriptor [d] succeeded, [d]'s unit raised [e], and no unit after
    [d] was called. *)
Theorem run_with_priority_failure (ds : list descriptor) (e : error) :
  snd (run_with_priority ds) = Raise e ->
  exists pre d post, py_sorted_desc priority ds = pre ++ d :: post /\
    fst (run_with_priority ds) = pre ++ [d] /\
    Forall (fun d' => is_ret (run_task (d_task d')) = true) pre /\
    run_task (d_task d) = Raise e.
Proof. unfold run_with_priority. apply run_sequential_fail. Qed.

(** [run_with_dependency_graph] with distinct task names: if some task's unit
    fails, the run raises and returns no mapping. *)
Theorem run_with_dependency_graph_unit_failure (tasks : list (string * work))
    (deps : list (string * list string)) (n : string) (w : work) (e : error) :
  NoDup (map fst tasks) -> In (n, w) tasks -> run_task w = Raise e ->
  exists e' tr, DepGraph.run_with_dependency_graph tasks deps = (Raise e', tr).
Proof.
  intros Hnd Hin He. unfold DepGraph.run_with_dependency_graph.
  destruct (DepGraph.run_each _ (map fst tasks) DepGraph.init) as [[[u|e'] s]|] eqn:E;
    [|eauto|eauto].
  exfalso. destruct (DepGraphFacts.run_top_ret _ _ _ _ E) as ((_ & Hval & _) & _ & Hall).
  assert (Hn : In n (map fst tasks)) by (apply in_map_iff; now exists (n, w)).
  apply Hall, in_map_iff in Hn as ([n' v] & Hn' & Hinr). cbn in Hn'. subst n'.
  destruct (Hval n v Hinr) as (w' & Ew' & Hw').
  rewrite (DepGraphMore.lookup_nodup tasks n w Hnd Hin) in Ew'. injection Ew' as <-.
  congruence.
Qed.

(** [run_with_dependency_graph] with an acyclic dependency map and units
    that succeed: if a task reaches a prerequisite name that is not a task,
    the run raises [KeyError] for a name that is not a task. *)
Theorem run_with_dependency_graph_missing_prerequisite (tasks : list (string * work))
    (deps : list (string * list string)) (t x : string) :
  (forall n, ~ DepGraph.reach deps n n) ->
  (forall n w, In (n, w) tasks -> is_ret (run_task w) = true) ->
  In t (map fst tasks) -> DepGraph.reach deps t x -> ~ In x (map fst tasks) ->
  exists y tr, DepGraph.run_with_dependency_graph tasks deps = (Raise (KeyError y), tr) /\
    ~ In y (map fst tasks).
Proof.
  intros Hac Hok Ht Htx Hx. unfold DepGraph.run_with_dependency_graph.
  destruct (DepGraph.run_each _ (map fst tasks) DepGraph.init) as [[[u|e] s]|] eqn:E.
  - exfalso. destruct (DepGraphFacts.run_top_ret _ _ _ _ E) as (Hi & _ & Hall).
    pose proof (DepGraphFacts.reach_results _ _ _ _ _ Hi (Hall t Ht) Htx) as Hxr.
    destruct Hi as (_ & Hval & _).
    apply in_map_iff in Hxr as ([x' v] & Hx' & Hinr). cbn in Hx'. subst x'.
    destruct (Hval x v Hinr) as (w & Ew & _). apply DepGraphFacts.lookup_In in Ew.
    apply Hx. apply in_map_iff. now exists (x, w).
  - destruct (DepGraphMore.run_top_raise_any _ _ Hok _ _ E) as [(y & _ & Hy)|(y & -> & Hy)].
    + exfalso. exact (Hac y Hy).
    + eauto.
  - exfalso. exact (DepGraphFacts.run_top_not_none _ _ E).
Qed.

(** [run_with_resource_management]: in every reachable state the tasks
    inside the semaphore plus its free counter make up exactly
    [max_concurrent], and a task waits only when no slot is free, queued. *)
Theorem run_with_resource_management_slots (n k : nat) (st : Sem.sstate) :
  Sem.reachable n k st ->
  Sem.running_count n st + Sem.counter st = k /\
  (forall i, i < n -> Sem.phases st i = Sem.Waiting ->
     Sem.counter st = 0 /\ In i (Sem.waiters st)).
Proof.
  intros Hr. destruct (SemMore.reachable_inv n k st Hr) as (Hc & _ & _ & Hw2 & Hfree).
  split; [exact Hc|]. intros i Hi Hp. pose proof (Hw2 i Hi Hp) as Hin.
  split; [apply Hfree; destruct (Sem.waiters st); [destruct Hin | discriminate] | exact Hin].
Qed.

(** [run_with_resource_management] with [max_concurrent >= 1] never
    deadlocks: in every reachable state either all tasks have finished or
    some task can make a step. *)
Theorem run_with_resource_management_no_deadlock (n k : nat) (st : Sem.sstate) :
  1 <= k -> Sem.reachable n k st ->
  (forall i, i < n -> Sem.phases st i = Sem.Finished) \/ exists st', Sem.step n st st'.
Proof.
  intros Hk Hr. destruct (SemMore.reachable_inv n k st Hr) as (Hc & _ & _ & Hw2 & Hfree).
  destruct (SemMore.all_finished_or_not (seq 0 n) (Sem.phases st)) as [Hall|(i & Hi & Hne)].
  - left. intros i Hi. apply Hall, in_seq. lia.
  - right. apply in_seq in Hi. destruct (Sem.phases st i) eqn:Ep.
    + exists (Sem.acquire i st). apply Sem.step_start; [lia | exact Ep].
    + pose proof (Hw2 i ltac:(lia) Ep) as Hin.
      assert (H0 : Sem.counter st = 0)
        by (apply Hfree; destruct (Sem.waiters st); [destruct Hin | discriminate]).
      unfold Sem.running_count in Hc.
      destruct (filter (fun j => Sem.is_running (Sem.phases st j)) (seq 0 n)) as [|i' r] eqn:Ef;
        [cbn in Hc; lia|].
      assert (Hi' : In i' (filter (fun j => Sem.is_running (Sem.phases st j)) (seq 0 n)))
        by (rewrite Ef; now left).
      apply filter_In in Hi' as [Hi'n Hrun]. apply in_seq in Hi'n.
      exists (Sem.release i' st). apply Sem.step_finish; [lia|].
      destruct (Sem.phases st i'); [discriminate | discriminate | reflexivity | discriminate].
    + exists (Sem.release i st). apply Sem.step_finish; [lia | exact Ep].
    + contradiction.
Qed.

(** [run_with_resource_management] terminates: every step raises the
    progress potential (the sum over tasks of created 0, waiting 1,
    running 2, finished 3), which never exceeds [3 n]; so a run makes at
    most [3 n] steps. *)
Theorem run_with_resource_management_terminates (n k : nat) (st st' : Sem.sstate) :
  Sem.reachable n k st -> Sem.step n st st' ->
  SemMore.potential n st < SemMore.potential n st' <= 3 * n.
Proof.
  intros Hr Hs. split; [|apply SemMore.potential_le].
  destruct (SemMore.reachable_inv n k st Hr) as (_ & _ & Hw1 & _ & _).
  unfold SemMore.potential.
  destruct Hs as [i st Hi Hcr | i st Hi Hrun].
  - assert (Hin : In i (seq 0 n)) by (apply in_seq; lia).
    unfold Sem.acquire.
    destruct (Sem.counter st) as [|c], (Sem.waiters st) as [|w ws]; cbn [Sem.phases];
      match goal with
      | |- context [Sem.upd (Sem.phases st) i ?p] =>
          pose proof (SemMore.wsum_upd_in (seq 0 n) (Sem.phases st) i p (seq_NoDup n 0) Hin) as U
      end;
      rewrite Hcr in U; cbn [SemMore.rank] in U; lia.
  - assert (Hin : In i (seq 0 n)) by (apply in_seq; lia).
    pose proof (SemMore.wsum_upd_in (seq 0 n) (Sem.phases st) i Sem.Finished
                  (seq_NoDup n 0) Hin) as U1.
    rewrite Hrun in U1. cbn [SemMore.rank] in U1.
    unfold Sem.release. destruct (Sem.waiters st) as [|j ws] eqn:Ew; cbn [Sem.phases]; [lia|].
    destruct (Hw1 j (or_introl eq_refl)) as [Hjn Hjp].
    assert (Hji : j <> i) by congruence.
    assert (Hjin : In j (seq 0 n)) by (apply in_seq; lia).
    pose proof (SemMore.wsum_upd_in (seq 0 n) (Sem.upd (Sem.phases st) i Sem.Finished) j
                  Sem.Running (seq_NoDup n 0) Hjin) as U2.
    rewrite SemMore.upd_neq in U2 by exact Hji. rewrite Hjp in U2. cbn [SemMore.rank] in U2.
    lia.
Qed.

(** [run_with_resource_management] with [max_concurrent = 0]: no task ever
    enters the semaphore; every task stays created or waiting, so with at
    least one task the gather never completes. *)
Theorem run_with_resource_management_zero (n : nat) (st : Sem.sstate) :
  Sem.reachable n 0 st ->
  forall i, Sem.phases st i = Sem.Created \/ Sem.phases st i = Sem.Waiting.
Proof.
  intros Hr.
  enough (H : Sem.counter st = 0 /\
              forall i, Sem.phases st i = Sem.Created \/ Sem.phases st i = Sem.Waiting)
    by exact (proj2 H).
  induction Hr as [|st st' _ [Hc Hp] Hs].
  - split; [reflexivity | intros i; now left].
  - destruct Hs as [i st Hi Hcr | i st Hi Hrun].
    + unfold Sem.acquire. rewrite Hc. cbn [Sem.counter Sem.phases].
      split; [reflexivity|]. intros j. unfold Sem.upd.
      destruct (Nat.eqb j i); [now right | apply Hp].
    + exfalso. destruct (Hp i) as [H|H]; congruence.
Qed.

(** * Instances of the extra properties *)

Lemma run_with_progress_all_ok_witness :
  let tasks := [{| wname := "a"; wdur := 1; wres := Ret (VInt 1) |};
                {| wname := "b"; wdur := 1; wres := Ret (VInt 2) |}] in
  run_with_progress tasks =
    (flat_map (fun p => [PInvoke (fst p); PBar (snd p) (length tasks)])
              (combine tasks (seq 1 (length tasks))) ++ [PNewline],
     Ret [VInt 1; VInt 2]) /\
  (forall c t, In (PBar c t) (fst (run_with_progress tasks)) ->
     1 <= c <= t /\ update_progress_bar (Z.of_nat c) (Z.of_nat t) <> None).
Proof. intros tasks. apply run_with_progress_all_ok. reflexivity. Defined.

Lemma run_with_progress_failure_witness :
  let a := {| wname := "a"; wdur := 1; wres := Ret (VInt 1) |} in
  let f := {| wname := "f"; wdur := 1; wres := Raise (Exc "boom") |} in
  let b := {| wname := "b"; wdur := 1; wres := Ret (VInt 2) |} in
  run_with_progress ([a] ++ f :: [b]) =
    (flat_map (fun p => [PInvoke (fst p); PBar (snd p) (length ([a] ++ f :: [b]))])
              (combine [a] (seq 1 (length [a]))) ++ [PInvoke f],
     Raise (Exc "boom")).
Proof.
  intros a f b. apply (run_with_progress_failure [a] [b] f [VInt 1]); reflexivity.
Defined.

Lemma update_progress_bar_width_witness :
  exists fl bar, update_progress_bar 3 4 = Some (fl, bar) /\
    fl = (50 * 3 / 4)%Z /\ (0 <= fl <= 50)%Z /\
    length bar = Z.to_nat (50 + 2 * fl) /\ (fl = 50%Z <-> 3%Z = 4%Z).
Proof. apply update_progress_bar_width; lia. Defined.

Lemma run_with_retry_nonpositive_witness :
  run_with_retry (fun _ => @Raise value (Exc "down")) 0 1 = ([], Ret VNone).
Proof. apply run_with_retry_nonpositive. lia. Defined.

Lemma run_with_retry_eventual_success_witness :
  let u := fun k => if Nat.ltb k 2 then @Raise value (Exc "flaky") else Ret (VInt 9) in
  run_with_retry u 3 1 =
    (flat_map (fun a => [Attempt a; Sleep 1]) (seq 0 2) ++ [Attempt 2], Ret (VInt 9)).
Proof.
  intros u. apply run_with_retry_eventual_success.
  - vm_compute. lia.
  - intros j Hj. unfold u. destruct (Nat.ltb_spec j 2); [reflexivity | lia].
  - reflexivity.
Defined.

Lemma run_with_timeout_in_time_witness :
  let w := {| wname := "fast"; wdur := 1; wres := Raise TimeoutError |} in
  (forall v, run_task w = Ret v -> run_with_timeout w 2 = Ret v) /\
  (forall e, run_task w = Raise e -> e <> TimeoutError -> run_with_timeout w 2 = Raise e) /\
  (run_task w = Raise TimeoutError -> run_with_timeout w 2 = Ret VNone).
Proof. intros w. apply run_with_timeout_in_time. vm_compute. reflexivity. Defined.

Lemma run_with_rate_limit_stops_at_failure_witness :
  let ok := fun z => {| wname := "ok"; wdur := 1; wres := Ret (VInt z) |} in
  let bad := {| wname := "bad"; wdur := 1; wres := Raise (Exc "boom") |} in
  let tasks := [ok 1%Z; ok 2%Z; ok 3%Z; bad; ok 5%Z] in
  let sch := fun i => rev (seq 0 (length (firstn 2 (skipn i tasks)))) in
  fst (run_with_rate_limit tasks 2 1 sch) =
    flat_map (fun k => [RunBatch (firstn 2 (skipn (k * 2) tasks)); Pause 1]) (seq 0 1)
      ++ [RunBatch (firstn 2 (skipn (1 * 2) tasks))] /\
  exists e, snd (run_with_rate_limit tasks 2 1 sch) = Some (Raise e) /\
    exists w, In w (firstn 2 (skipn (1 * 2) tasks)) /\ run_task w = Raise e.
Proof.
  intros ok bad tasks sch.
  apply (run_with_rate_limit_stops_at_failure tasks 2 1 sch 1 [VInt 1; VInt 2]).
  - lia.
  - reflexivity.
  - exists bad, (Exc "boom"). split; [right; left; reflexivity | reflexivity].
  - intros i. apply Permutation_sym, Permutation_rev.
Defined.

Lemma run_in_parallel_first_failure_witness :
  run_in_parallel [{| wname := "a"; wdur := 1; wres := Ret (VInt 1) |};
                   {| wname := "b"; wdur := 3; wres := Raise (Exc "late") |};
                   {| wname := "c"; wdur := 2; wres := Raise (Exc "early") |}] ([0] ++ 2 :: [1])
    = Some (Raise (Exc "early")).
Proof.
  eapply run_in_parallel_first_failure.
  - apply perm_skip, perm_swap.
  - intros j [<-|[]]. eexists. split; reflexivity.
  - reflexivity.
  - reflexivity.
Defined.

Lemma run_in_parallel_pending_witness :
  run_in_parallel [{| wname := "a"; wdur := 1; wres := Ret (VInt 1) |};
                   {| wname := "b"; wdur := 9; wres := Ret (VInt 2) |}] [0] = None.
Proof.
  apply run_in_parallel_pending; [cbn; lia|].
  intros j [<-|[]]. eexists. split; reflexivity.
Defined.

Lemma run_with_priority_failure_witness :
  let x := {| wname := "X"; wdur := 0; wres := Ret (VStr "x") |} in
  let y := {| wname := "Y"; wdur := 0; wres := Raise (Exc "y failed") |} in
  let ds := [{| d_task := x; priority := 1 |}; {| d_task := y; priority := 5 |}] in
  exists pre d post, py_sorted_desc priority ds = pre ++ d :: post /\
    fst (run_with_priority ds) = pre ++ [d] /\
    Forall (fun d' => is_ret (run_task (d_task d')) = true) pre /\
    run_task (d_task d) = Raise (Exc "y failed").
Proof. intros x y ds. apply run_with_priority_failure. vm_compute. reflexivity. Defined.

Lemma run_with_dependency_graph_unit_failure_witness :
  exists e' tr, DepGraph.run_with_dependency_graph
    [("A"%string, {| wname := "A"; wdur := 0; wres := Ret VNone |});
     ("B"%string, {| wname := "B"; wdur := 0; wres := Raise (Exc "boom") |})]
    [("A"%string, ["B"%string])] = (Raise e', tr).
Proof.
  apply (run_with_dependency_graph_unit_failure _ _ "B"%string
           {| wname := "B"; wdur := 0; wres := Raise (Exc "boom") |} (Exc "boom")).
  - constructor; [intros [H|[]]; discriminate | constructor; [intros [] | constructor]].
  - right. left. reflexivity.
  - reflexivity.
Defined.

Lemma run_with_dependency_graph_missing_prerequisite_witness :
  let tasks := [("A"%string, {| wname := "A"; wdur := 0; wres := Ret VNone |})] in
  let deps := [("A"%string, ["Z"%string])] in
  exists y tr, DepGraph.run_with_dependency_graph tasks deps = (Raise (KeyError y), tr) /\
    ~ In y (map fst tasks).
Proof.
  intros tasks deps.
  apply (run_with_dependency_graph_missing_prerequisite tasks deps "A"%string "Z"%string).
  - intros n Hr. inversion Hr as [x y He | x m y He Hm]; subst;
      unfold DepGraph.edge, DepGraph.deps_get in He; cbn in He;
      destruct (String.eqb_spec n "A") as [->|]; cbn in He;
      try destruct He as [He|[]]; try discriminate; try contradiction.
    subst m. inversion Hm as [x y He' | x m y He' _]; subst;
      vm_compute in He'; contradiction.
  - intros n w [H|[]]. injection H as _ <-. reflexivity.
  - left. reflexivity.
  - apply DepGraph.reach_one. vm_compute. now left.
  - intros [H|[]]. discriminate.
Defined.

(** Two tasks under [Semaphore(1)], the second queued behind the first. *)
Lemma sem_two_tasks_reachable :
  Sem.reachable 2 1 (Sem.acquire 1 (Sem.acquire 0 (Sem.initial 1))).
Proof.
  apply (Sem.reach_step _ _ (Sem.acquire 0 (Sem.initial 1)));
    [apply (Sem.reach_step _ _ (Sem.initial 1)); [apply Sem.reach_init|]|];
    apply Sem.step_start; (lia || reflexivity).
Qed.

Lemma run_with_resource_management_slots_witness :
  let st := Sem.acquire 1 (Sem.acquire 0 (Sem.initial 1)) in
  Sem.running_count 2 st + Sem.counter st = 1 /\
  (forall i, i < 2 -> Sem.phases st i = Sem.Waiting ->
     Sem.counter st = 0 /\ In i (Sem.waiters st)).
Proof. intros st. apply run_with_resource_management_slots. exact sem_two_tasks_reachable. Defined.

Lemma run_with_resource_management_no_deadlock_witness :
  let st := Sem.acquire 1 (Sem.acquire 0 (Sem.initial 1)) in
  (forall i, i < 2 -> Sem.phases st i = Sem.Finished) \/ exists st', Sem.step 2 st st'.
Proof.
  intros st. apply (run_with_resource_management_no_deadlock 2 1);
    [lia | exact sem_two_tasks_reachable].
Defined.

Lemma run_with_resource_management_terminates_witness :
  let st := Sem.acquire 1 (Sem.acquire 0 (Sem.initial 1)) in
  SemMore.potential 2 st < SemMore.potential 2 (Sem.release 0 st) <= 3 * 2.
Proof.
  intros st. apply (run_with_resource_management_terminates 2 1).
  - exact sem_two_tasks_reachable.
  - apply Sem.step_finish; [lia | reflexivity].
Defined.

Lemma run_with_resource_management_zero_witness :
  let st := Sem.acquire 1 (Sem.acquire 0 (Sem.initial 0)) in
  (Sem.phases st 0 = Sem.Created \/ Sem.phases st 0 = Sem.Waiting) /\
  (Sem.phases st 1 = Sem.Created \/ Sem.phases st 1 = Sem.Waiting).
Proof.
  intros st.
  assert (Hr : Sem.reachable 2 0 st).
  { apply (Sem.reach_step _ _ (Sem.acquire 0 (Sem.initial 0)));
      [apply (Sem.reach_step _ _ (Sem.initial 0)); [apply Sem.reach_init|]|];
      apply Sem.step_start; (lia || reflexivity). }
  split; apply (run_with_resource_management_zero 2 st Hr).
Defined.
